(** * raildata: the entity resolution engine and the token-managed request
    pipeline, embedded from find.go, codes.go, client.go, api/api.go and
    errors/errors.go.

    Conventions of the embedding.
    - A Go [string] is a sequence of bytes: [string] here, one [ascii] per
      byte; [len] and indexing are byte-wise, as in Go.
    - A Go [int] is modelled by [Z].  The integers the embedded code
      computes are string lengths, indices into a table and the size
      [(len+1)*(len+1)] of that table; for any pair of strings whose table
      can be allocated they are far below 2^63, so the 64-bit wrap-around is
      never reached and is not written out.
    - A pointer [*T] into an immutable table is modelled by [option T]
      ([None] is [nil]); the tables are never written after they are built.
    - A run-time panic (index out of range) is the [Panics] outcome of the
      [exec] monad, so that "never fails" is a theorem and not a convention.
    - [strings.ToLower] is a library function: the finder, the lookup
      tables and the catalogs take it as a parameter [ToLower].  The
      theorems on the catalogs assume of it only what it does on a string of
      ASCII bytes ([lowers_ascii]): there it is the ASCII lower-casing
      [ascii_ToLower].  Nothing is assumed of it on other strings, where it
      maps Unicode letters and replaces invalid bytes.  The catalogs hold
      ASCII strings only, and the instances on test data, whose queries are
      ASCII, are evaluated with [ascii_ToLower]. *)

From Stdlib Require Import ZArith Ascii String.
From stdpp Require Import base option list gmap strings.

Local Open Scope Z_scope.

(** ** Outcomes of Go code that may panic *)

Inductive exec (A : Type) : Type :=
  | Return (a : A)
  | Panics.
Arguments Return {A} a.
Arguments Panics {A}.

#[global] Instance exec_ret : MRet exec := fun A a => Return a.
#[global] Instance exec_bind : MBind exec := fun A B f m =>
  match m with
  | Return a => f a
  | Panics => Panics
  end.

(** [for i := lo; i < hi; i++ { s = body i s }] *)
Fixpoint iterate {St : Type} (n : nat) (i : Z) (body : Z → St → exec St)
    (s : St) : exec St :=
  match n with
  | O => Return s
  | S n' => s' ← body i s; iterate n' (i + 1) body s'
  end.

Definition for_range {St : Type} (lo hi : Z) (body : Z → St → exec St)
    (s : St) : exec St :=
  iterate (Z.to_nat (hi - lo)) lo body s.

(** [for _, x := range l { s = body x s }] *)
Fixpoint for_each {A St : Type} (l : list A) (body : A → St → exec St)
    (s : St) : exec St :=
  match l with
  | [] => Return s
  | x :: l' => s' ← body x s; for_each l' body s'
  end.

(** ** Strings and slices *)

Definition len (s : string) : Z := Z.of_nat (String.length s).

(** [s[i]], panicking out of range. *)
Definition byte_at (s : string) (i : Z) : exec ascii :=
  if decide (0 ≤ i) then
    match String.get (Z.to_nat i) s with
    | Some c => Return c
    | None => Panics
    end
  else Panics.

(** [s[lo:hi]], panicking unless [0 <= lo <= hi <= len(s)]. *)
Definition substr (s : string) (lo hi : Z) : exec string :=
  if decide (0 ≤ lo ∧ lo ≤ hi ∧ hi ≤ len s) then
    Return (String.substring (Z.to_nat lo) (Z.to_nat (hi - lo)) s)
  else Panics.

(** [make([]int, n)] *)
Definition make (n : Z) : exec (list Z) :=
  if decide (0 ≤ n) then Return (replicate (Z.to_nat n) 0) else Panics.

(** [a[i]] *)
Definition slice_get (a : list Z) (i : Z) : exec Z :=
  if decide (0 ≤ i) then
    match a !! Z.to_nat i with
    | Some v => Return v
    | None => Panics
    end
  else Panics.

(** [a[i] = v] *)
Definition slice_set (a : list Z) (i v : Z) : exec (list Z) :=
  if decide (0 ≤ i < Z.of_nat (length a)) then
    Return (<[Z.to_nat i := v]> a)
  else Panics.

(** ASCII lower-casing: what [strings.ToLower] does on a string whose bytes
    are all below 0x80. *)
Definition ascii_lower (c : ascii) : ascii :=
  let n := nat_of_ascii c in
  if (65 <=? n)%nat && (n <=? 90)%nat then ascii_of_nat (n + 32) else c.

Fixpoint ascii_ToLower (s : string) : string :=
  match s with
  | EmptyString => EmptyString
  | String c s' => String (ascii_lower c) (ascii_ToLower s')
  end.

(** ** The reference notion: longest common subsequence *)

Definition bytes (s : string) : list ascii := String.list_ascii_of_string s.

(** A string of ASCII bytes, and what is assumed of [strings.ToLower]: on a
    string of ASCII bytes it lower-cases the letters A to Z and leaves the
    other bytes alone. *)
Definition is_ascii (s : string) : Prop :=
  Forall (fun c => (nat_of_ascii c < 128)%nat) (bytes s).

#[global] Instance is_ascii_dec (s : string) : Decision (is_ascii s).
Proof. unfold is_ascii. apply _. Defined.

Definition lowers_ascii (ToLower : string → string) : Prop :=
  ∀ s, is_ascii s → ToLower s = ascii_ToLower s.

Section LCS.
Context {A : Type} `{EqDecision A}.

(** [s] is a common subsequence of [a] and [b]. *)
Definition common_subsequence (s a b : list A) : Prop :=
  s `sublist_of` a ∧ s `sublist_of` b.

(** [n] is the length of a longest common subsequence of [a] and [b]. *)
Definition LCS_length (a b : list A) (n : nat) : Prop :=
  (∃ s, common_subsequence s a b ∧ length s = n) ∧
  (∀ s, common_subsequence s a b → (length s ≤ n)%nat).

(** The textbook recursion. *)
Fixpoint lcs (a b : list A) : nat :=
  match a with
  | [] => 0%nat
  | x :: a' =>
    (fix inner (b : list A) : nat :=
       match b with
       | [] => 0%nat
       | y :: b' =>
         if decide (x = y) then S (lcs a' b')
         else Nat.max (lcs a' b) (inner b')
       end) b
  end.
End LCS.

(** ** find.go *)

(** [fuzzyMatch]: one cell of the table. *)
Definition fuzzyMatch_cell (input candidate : string) (rs row col : Z)
    (matchLen : list Z) : exec (list Z) :=
  let idx := row * rs + col in
  a ← byte_at input (col - 1);
  b ← byte_at candidate (row - 1);
  m ← (if decide (a = b)
       then (d ← slice_get matchLen (idx - rs - 1); mret (1 + d))
       else mret 0);
  u ← slice_get matchLen (idx - rs);
  l ← slice_get matchLen (idx - 1);
  d ← slice_get matchLen (idx - rs - 1);
  slice_set matchLen idx (Z.max (Z.max (Z.max m u) l) d).

Definition fuzzyMatch (input candidate : string) : exec Z :=
  let rs := len input + 1 in
  let cs := len candidate + 1 in
  matchLen ← make (rs * cs);
  matchLen ← for_range 1 cs (fun row matchLen =>
    for_range 1 rs (fun col matchLen =>
      fuzzyMatch_cell input candidate rs row col matchLen) matchLen) matchLen;
  slice_get matchLen (rs * cs - 1).

(** The loop invariant of [fuzzyMatch].  The entry for row [r], column [c]
    is the LCS length of the first [c] bytes of the input and the first [r]
    bytes of the candidate; [table_ok row col] says that row 0, column 0, the
    rows before [row] and the columns before [col] of row [row] hold it. *)
Definition cell_value (input candidate : string) (r c : Z) : Z :=
  Z.of_nat (lcs (take (Z.to_nat c) (bytes input))
                (take (Z.to_nat r) (bytes candidate))).

Definition table_ok (input candidate : string) (row col : Z) (m : list Z)
  : Prop :=
  let rs := len input + 1 in
  let cs := len candidate + 1 in
  Z.of_nat (length m) = rs * cs ∧
  ∀ r c, 0 ≤ r < cs → 0 ≤ c < rs →
    r = 0 ∨ c = 0 ∨ r < row ∨ (r = row ∧ c < col) →
    m !! Z.to_nat (r * rs + c) = Some (cell_value input candidate r c).

Section Finder.
Context {T : Type}.
Variable ToLower : string → string.

(** The loop state of [fuzzyFind]: [best], [matchLen], [strLen]. *)
Definition fuzzyFind_step (input : string) (item : T) (candidate : string)
    (st : option T * Z * Z) : exec (option T * Z * Z) :=
  let '(best, matchLen, strLen) := st in
  let candidate := ToLower candidate in
  ml ← fuzzyMatch input candidate;
  if bool_decide (ml > matchLen)
     || (bool_decide (ml = matchLen) && bool_decide (len candidate < strLen))
  then mret (Some item, ml, len candidate)
  else mret (best, matchLen, strLen).

Definition fuzzyFind (input : string) (items : list T)
    (getCandidates : T → list string) : exec (option T * Z) :=
  st ← for_each items (fun item st =>
          for_each (getCandidates item) (fuzzyFind_step input item) st)
        (None, 0, 0);
  mret (st.1.1, st.1.2).

(** For the loop invariant of [fuzzyFind]: the (entity, candidate string)
    pairs in the order the two loops visit them, the LCS length of the
    input and a lower-cased candidate, and what the loop state records
    about the pairs seen so far. *)
Definition candidates_of (items : list T) (getCandidates : T → list string)
  : list (T * string) :=
  items ≫= fun item => pair item <$> getCandidates item.

Definition score (input candidate : string) : Z :=
  Z.of_nat (lcs (bytes input) (bytes (ToLower candidate))).

Definition best_so_far (input : string) (seen : list (T * string))
    (st : option T * Z * Z) : Prop :=
  let '(best, matchLen, strLen) := st in
  (∀ p, p ∈ seen → score input p.2 ≤ matchLen) ∧
  (∀ p, p ∈ seen → score input p.2 = matchLen → strLen ≤ len (ToLower p.2)) ∧
  ((matchLen = 0 ∧ best = None ∧ strLen = 0) ∨
   (0 < matchLen ∧
    ∃ p, p ∈ seen ∧ best = Some p.1 ∧ score input p.2 = matchLen ∧
         len (ToLower p.2) = strLen)).

Record finderImpl : Type := {
  byCode : gmap string T;
  byName : gmap string T;
  byAbbr : gmap string T;
  list_ : list T;
  getCandidates : T → list string;
  synthesize : option string → option string → exec T;
  code : option string;
  name : option string;
}.

Definition WithCode (f : finderImpl) (c : string) : finderImpl :=
  {| byCode := byCode f; byName := byName f; byAbbr := byAbbr f;
     list_ := list_ f; getCandidates := getCandidates f;
     synthesize := synthesize f; code := Some c; name := name f |}.

Definition WithName (f : finderImpl) (n : string) : finderImpl :=
  {| byCode := byCode f; byName := byName f; byAbbr := byAbbr f;
     list_ := list_ f; getCandidates := getCandidates f;
     synthesize := synthesize f; code := code f; name := Some n |}.

(** A finder after the optional [WithCode] and [WithName] calls of its
    callers ([strToStation], [strToLine], the tests). *)
Definition with_query (f : finderImpl) (co no : option string) : finderImpl :=
  let f := match co with Some c => WithCode f c | None => f end in
  match no with Some n => WithName f n | None => f end.

(** The name branch of [Search] (lines 49-61). *)
Definition Search_name (f : finderImpl) (n : string) : exec (option T * bool) :=
  let nameLc := ToLower n in
  match byName f !! nameLc with
  | Some item => mret (Some item, true)
  | None =>
    match byAbbr f !! nameLc with
    | Some item => mret (Some item, true)
    | None =>
      '(item, matchLen) ← fuzzyFind nameLc (list_ f) (getCandidates f);
      if bool_decide (matchLen > 2) && bool_decide (matchLen >= Z.quot (len nameLc) 4)
      then mret (item, true)
      else mret (None, false)
    end
  end.

Definition Search (f : finderImpl) : exec (option T * bool) :=
  match (c ← code f; byCode f !! ToLower c) with
  | Some item => mret (Some item, true)
  | None =>
    match name f with
    | Some n => Search_name f n
    | None => mret (None, false)
    end
  end.

Definition SearchOrSynthesize (f : finderImpl) : exec (option T) :=
  '(item, found) ← Search f;
  if (found : bool) then Return item
  else out ← synthesize f (code f) (name f); Return (Some out).

(** [makeMap] and [makeMmap] of codes.go: later entries overwrite. *)
Definition makeMap (input : list T) (getKey : T → string) : gmap string T :=
  foldl (fun out v => <[ToLower (getKey v) := v]> out) ∅ input.

Definition makeMmap (input : list T) (getKeys : T → list string)
  : gmap string T :=
  foldl (fun out v =>
           foldl (fun out k => <[ToLower k := v]> out) out (getKeys v))
        ∅ input.
End Finder.

(** ** codes.go *)

Record Station : Type := mkStation {
  Station_Code : string;
  Station_Name : string;
  Station_ShortName : string;
}.

#[global] Instance Station_eq_dec : EqDecision Station.
Proof. solve_decision. Defined.

Definition Stations : list Station := [
  mkStation "AM" "Aberdeen-Matawan" "Matawan";
  mkStation "AB" "Absecon" "Absecon";
  mkStation "AZ" "Allendale" "Allendale";
  mkStation "AH" "Allenhurst" "Allenhurst";
  mkStation "AS" "Anderson Street" "Anderson St.";
  mkStation "AN" "Annandale" "Annandale";
  mkStation "AP" "Asbury Park" "Asbury Park";
  mkStation "AO" "Atco" "Atco";
  mkStation "AC" "Atlantic City Rail Terminal" "Atlantic City";
  mkStation "AV" "Avenel" "Avenel";
  mkStation "BA" "BWI Thurgood Marshall Airport" "BWI Airport";
  mkStation "BL" "Baltimore Station" "Baltimore";
  mkStation "BI" "Basking Ridge" "Basking Ridge";
  mkStation "BH" "Bay Head" "Bay Head";
  mkStation "MC" "Bay Street" "Bay Street";
  mkStation "BS" "Belmar" "Belmar";
  mkStation "BY" "Berkeley Heights" "Berkeley Hts";
  mkStation "BV" "Bernardsville" "Bernardsville";
  mkStation "BM" "Bloomfield" "Bloomfield";
  mkStation "BN" "Boonton" "Boonton";
  mkStation "BK" "Bound Brook" "Bound Brook";
  mkStation "BB" "Bradley Beach" "Bradley Beach";
  mkStation "BU" "Brick Church" "Brick Church";
  mkStation "BW" "Bridgewater" "Bridgewater";
  mkStation "BF" "Broadway Fair Lawn" "Broadway-Fl";
  mkStation "CB" "Campbell Hall" "Campbell Hall";
  mkStation "CM" "Chatham" "Chatham";
  mkStation "CY" "Cherry Hill" "Cherry Hill";
  mkStation "IF" "Clifton" "Clifton";
  mkStation "CN" "Convent Station" "Convent Stn";
  mkStation "XC" "Cranford" "Cranford";
  mkStation "DL" "Delawanna" "Delawanna";
  mkStation "DV" "Denville" "Denville";
  mkStation "DO" "Dover" "Dover";
  mkStation "DN" "Dunellen" "Dunellen";
  mkStation "EO" "East Orange" "East Orange";
  mkStation "ED" "Edison" "Edison";
  mkStation "EH" "Egg Harbor City" "Egg Harbor";
  mkStation "EL" "Elberon" "Elberon";
  mkStation "EZ" "Elizabeth" "Elizabeth";
  mkStation "EN" "Emerson" "Emerson";
  mkStation "EX" "Essex Street" "Essex Street";
  mkStation "FW" "Fanwood" "Fanwood";
  mkStation "FH" "Far Hills" "Far Hills";
  mkStation "FE" "Finderne" "Finderne";
  mkStation "GD" "Garfield" "Garfield";
  mkStation "GW" "Garwood" "Garwood";
  mkStation "GI" "Gillette" "Gillette";
  mkStation "GL" "Gladstone" "Gladstone";
  mkStation "GG" "Glen Ridge" "Glen Ridge";
  mkStation "GK" "Glen Rock Boro Hall" "Glen Rock Boro";
  mkStation "RS" "Glen Rock Main Line" "Glen Rock Main";
  mkStation "GA" "Great Notch" "Great Notch";
  mkStation "HQ" "Hackettstown" "Hackettstown";
  mkStation "HL" "Hamilton" "Hamilton";
  mkStation "HN" "Hammonton" "Hammonton";
  mkStation "RM" "Harriman" "Harriman";
  mkStation "HW" "Hawthorne" "Hawthorne";
  mkStation "HZ" "Hazlet" "Hazlet";
  mkStation "HG" "High Bridge" "High Bridge";
  mkStation "HI" "Highland Avenue" "Highland Ave.";
  mkStation "HD" "Hillsdale" "Hillsdale";
  mkStation "HB" "Hoboken" "Hoboken";
  mkStation "UF" "Hohokus" "Hohokus";
  mkStation "JA" "Jersey Avenue" "Jersey Ave.";
  mkStation "KG" "Kingsland" "Kingsland";
  mkStation "HP" "Lake Hopatcong" "Lake Hopatcong";
  mkStation "ON" "Lebanon" "Lebanon";
  mkStation "LP" "Lincoln Park" "Lincoln Park";
  mkStation "LI" "Linden" "Linden";
  mkStation "LW" "Lindenwold" "Lindenwold";
  mkStation "FA" "Little Falls" "Little Falls";
  mkStation "LS" "Little Silver" "Little Silver";
  mkStation "LB" "Long Branch" "Long Branch";
  mkStation "LN" "Lyndhurst" "Lyndhurst";
  mkStation "LY" "Lyons" "Lyons";
  mkStation "MA" "Madison" "Madison";
  mkStation "MZ" "Mahwah" "Mahwah";
  mkStation "SQ" "Manasquan" "Manasquan";
  mkStation "MW" "Maplewood" "Maplewood";
  mkStation "XU" "Meadowlands" "Meadowlands";
  mkStation "MP" "Metropark" "Metropark";
  mkStation "MU" "Metuchen" "Metuchen";
  mkStation "MI" "Middletown NJ" "Middletown NJ";
  mkStation "MD" "Middletown NY" "Middletown NY";
  mkStation "MB" "Millburn" "Millburn";
  mkStation "GO" "Millington" "Millington";
  mkStation "MK" "Monmouth Park" "Monmouth Park";
  mkStation "HS" "Montclair Heights" "Montclair Hts.";
  mkStation "UV" "Montclair State U" "MSU";
  mkStation "ZM" "Montvale" "Montvale";
  mkStation "MX" "Morris Plains" "Morris Plains";
  mkStation "MR" "Morristown" "Morristown";
  mkStation "HV" "Mount Arlington" "Mt. Arlington";
  mkStation "OL" "Mount Olive" "Mount Olive";
  mkStation "TB" "Mount Tabor" "Mount Tabor";
  mkStation "MS" "Mountain Avenue" "Mountain Ave";
  mkStation "ML" "Mountain Lakes" "Mountain Lakes";
  mkStation "MT" "Mountain Station" "Mountain Stn";
  mkStation "MV" "Mountain View" "Mountain View";
  mkStation "MH" "Murray Hill" "Murray Hill";
  mkStation "NN" "Nanuet" "Nanuet";
  mkStation "NT" "Netcong" "Netcong";
  mkStation "NE" "Netherwood" "Netherwood";
  mkStation "NH" "New Bridge Landing" "New Bridge Ldg";
  mkStation "NB" "New Brunswick" "New Brunswick";
  mkStation "NC" "New Carrollton Station" "New Carrollton";
  mkStation "NV" "New Providence" "New Providence";
  mkStation "NY" "New York Penn Station" "New York";
  mkStation "NA" "Newark Airport" "Newark Airport";
  mkStation "ND" "Newark Broad Street" "Newark Broad";
  mkStation "NP" "Newark Penn Station" "Newark Penn";
  mkStation "OR" "North Branch" "North Branch";
  mkStation "NZ" "North Elizabeth" "North Elizab.";
  mkStation "NF" "North Philadelphia" "";
  mkStation "OD" "Oradell" "Oradell";
  mkStation "OG" "Orange" "Orange";
  mkStation "OS" "Otisville" "Otisville";
  mkStation "PV" "Park Ridge" "Park Ridge";
  mkStation "PS" "Passaic" "Passaic";
  mkStation "RN" "Paterson" "Paterson";
  mkStation "PC" "Peapack" "Peapack";
  mkStation "PQ" "Pearl River" "Pearl River";
  mkStation "PN" "Pennsauken" "Pennsauken";
  mkStation "PE" "Perth Amboy" "Perth Amboy";
  mkStation "PH" "Philadelphia" "Philadelphia";
  mkStation "PF" "Plainfield" "Plainfield";
  mkStation "PL" "Plauderville" "Plauderville";
  mkStation "PP" "Point Pleasant Beach" "Point Pleasant";
  mkStation "PO" "Port Jervis" "Port Jervis";
  mkStation "PR" "Princeton" "Princeton";
  mkStation "PJ" "Princeton Junction" "Princeton Jct.";
  mkStation "FZ" "Radburn Fair Lawn" "Radburn-Fl";
  mkStation "RH" "Rahway" "Rahway";
  mkStation "RY" "Ramsey Main St" "Ramsey";
  mkStation "17" "Ramsey Route 17" "Ramsey Rt 17";
  mkStation "RA" "Raritan" "Raritan";
  mkStation "RB" "Red Bank" "Red Bank";
  mkStation "RW" "Ridgewood" "Ridgewood";
  mkStation "RG" "River Edge" "River Edge";
  mkStation "RL" "Roselle Park" "Roselle Park";
  mkStation "RF" "Rutherford" "Rutherford";
  mkStation "CW" "Salisbury Mills-Cornwall" "Salisbury Mls";
  mkStation "SC" "Secaucus Concourse" "";
  mkStation "TS" "Secaucus Lower Lvl" "Secaucus";
  mkStation "SE" "Secaucus Upper Lvl" "Secaucus";
  mkStation "RT" "Short Hills" "Short Hills";
  mkStation "XG" "Sloatsburg" "Sloatsburg";
  mkStation "SM" "Somerville" "Somerville";
  mkStation "CH" "South Amboy" "South Amboy";
  mkStation "SO" "South Orange" "South Orange";
  mkStation "LA" "Spring Lake" "Spring Lake";
  mkStation "SV" "Spring Valley" "Spring Valley";
  mkStation "SG" "Stirling" "Stirling";
  mkStation "SF" "Suffern" "Suffern";
  mkStation "ST" "Summit" "Summit";
  mkStation "TE" "Teterboro" "Teterboro";
  mkStation "TO" "Towaco" "Towaco";
  mkStation "TR" "Trenton" "Trenton";
  mkStation "TC" "Tuxedo" "Tuxedo";
  mkStation "US" "Union" "Union";
  mkStation "UM" "Upper Montclair" "Upp. Montclair";
  mkStation "WK" "Waldwick" "Waldwick";
  mkStation "WA" "Walnut Street" "Walnut Street";
  mkStation "WS" "Washington Station" "Washington";
  mkStation "WG" "Watchung Avenue" "Watchung Ave.";
  mkStation "WT" "Watsessing Avenue" "Watsessing Ave";
  mkStation "23" "Wayne-Route 23" "Wayne Route 23";
  mkStation "WM" "Wesmont" "Wesmont";
  mkStation "WF" "Westfield" "Westfield";
  mkStation "WW" "Westwood" "Westwood";
  mkStation "WH" "White House" "White House";
  mkStation "WI" "Wilmington Station" "Wilmington";
  mkStation "WR" "Wood Ridge" "Wood-Ridge";
  mkStation "WB" "Woodbridge" "Woodbridge";
  mkStation "WL" "Woodcliff Lake" "Woodcliff Lake"
].

Definition stationAliases : gmap string (list string) := list_to_map [
  ("AC", ["Atlantic City Terminal"]);
  ("BA", ["B.W.I. Airport"]);
  ("MC", ["Bay Street (Montclair)"]);
  ("BF", ["Broadway"]);
  ("CN", ["Convent"]);
  ("ED", ["Edison Station"]);
  ("FE", ["Manville-Finderne"]);
  ("GK", ["Glen Rock (Boro Hall)"]);
  ("RS", ["Glen Rock (Main Line)"]);
  ("RM", ["Harriman Station"]);
  ("UF", ["Ho-Ho-Kus"]);
  ("MI", ["Middletown"]);
  ("MD", ["Middletown, NY"]);
  ("UV", ["Montclair State University"]);
  ("MT", ["Mountain Sta."]);
  ("ND", ["Newark Broad St."; "Newark Broad St"]);
  ("NA", ["Newark Int'l Airport"; "Newark Airport Railroad Station"]);
  ("NY", ["Penn Station New York"]);
  ("PN", ["Pennsauken Transit Center"]);
  ("PH", ["Philadelphia 30th St."; "30th St. Phl."]);
  ("PR", ["Princeton Station"]);
  ("FZ", ["Radburn"]);
  ("17", ["Route 17 Station"; "Ramsey Route 17 Station"]);
  ("CW", ["Salisbury Mills"]);
  ("TS", ["Secaucus Junction"; "Frank R Lautenberg Secaucus Lower Level"]);
  ("SE", ["Secaucus Station"; "Frank R Lautenberg Secaucus Upper Level"]);
  ("TR", ["Trenton Station"; "Trenton Transit Center"]);
  ("US", ["Union Station"]);
  ("WA", ["Walnut Street (Montclair)"]);
  ("WT", ["Watsessing Avenue (Bloomfield)"]);
  ("23", ["Wayne/Route 23 Transit Center [RR]"])
].

(** [m[k]] on a map of slices: the zero value [nil] when [k] is absent. *)
Definition aliases_of (m : gmap string (list string)) (k : string) : list string :=
  default [] (m !! k).

Definition stationsByCode (ToLower : string → string) : gmap string Station :=
  makeMap ToLower Stations Station_Code.
Definition stationsByName (ToLower : string → string) : gmap string Station :=
  makeMmap ToLower Stations
    (fun s => [Station_Name s] ++ aliases_of stationAliases (Station_Code s)).
Definition stationsByShortName (ToLower : string → string)
  : gmap string Station :=
  makeMap ToLower Stations Station_ShortName.

(** The [synthesize] closure of [FindStation]. *)
Definition synthesizeStation (code name : option string) : exec Station :=
  let out_Code := match code with None => "XX" | Some c => c end in
  let out_Name := match name with
                  | None => "Unknown " +:+ out_Code
                  | Some n => n
                  end in
  out_ShortName ← substr out_Name 0 (Z.min 14 (len out_Name));
  mret (mkStation out_Code out_Name out_ShortName).

Definition FindStation (ToLower : string → string) : finderImpl := {|
  byCode := stationsByCode ToLower;
  byName := stationsByName ToLower;
  byAbbr := stationsByShortName ToLower;
  list_ := Stations;
  getCandidates := fun s => [Station_Name s; Station_ShortName s];
  synthesize := synthesizeStation;
  code := None;
  name := None;
|}.

(** [Color]: three bytes, red, green, blue. *)
Record Color : Type := mkColor { red : Z; green : Z; blue : Z }.

Record Line : Type := mkLine {
  Line_Code : string;
  Line_Name : string;
  Line_Abbreviation : string;
  Line_Color : Color;
  Line_OtherAbbrs : list string;
}.

#[global] Instance Color_eq_dec : EqDecision Color.
Proof. solve_decision. Defined.
#[global] Instance Line_eq_dec : EqDecision Line.
Proof. solve_decision. Defined.

(** The colours are the values [MustParseHtmlColor] yields on the literals
    of codes.go. *)
Definition Lines : list Line := [
  mkLine "AC" "Atlantic City Line" "ACRL" (mkColor 7 90 170) ["ATLC"];
  mkLine "MC" "Montclair-Boonton Line" "MOBO" (mkColor 230 104 89) ["BNTN"; "BNTNM"; "MNBTN"];
  mkLine "BC" "Bergen County Line" "BERG" (mkColor 255 212 17) ["MNBN"];
  mkLine "ML" "Main Line" "MAIN" (mkColor 255 212 17) ["MNBN"];
  mkLine "ME" "Morris & Essex Line" "M&E" (mkColor 8 166 82) ["MNE"];
  mkLine "GS" "Gladstone Branch" "M&E" (mkColor 164 201 170) ["MNEG"];
  mkLine "NE" "Northeast Corridor Line" "NEC" (mkColor 221 52 57) [];
  mkLine "NC" "North Jersey Coast Line" "NJCL" (mkColor 3 163 223) ["NJCLL"];
  mkLine "PV" "Pascack Valley Line" "PASC" (mkColor 148 33 154) [];
  mkLine "PR" "Princeton Branch" "PRIN" (mkColor 221 52 57) [];
  mkLine "RV" "Raritan Valley Line" "RARV" (mkColor 242 165 55) [];
  mkLine "SL" "BetMGM Meadowlands" "BMGM" (mkColor 193 170 114) [];
  mkLine "AM" "Amtrak" "AMTK" (mkColor 255 255 0) [];
  mkLine "SP" "Septa" "SEPTA" (mkColor 31 79 163) []
].

Definition lineAliases : gmap string (list string) := list_to_map [
  ("AC", ["Atlantic City Rail Line"; "Atl. City Line"]);
  ("MC", ["Montclair-Boonton"]);
  ("BC", ["Main/Bergen County Line"; "Bergen Co. Line"]);
  ("ML", ["Port Jervis Line"]);
  ("ME", ["Morristown Line"]);
  ("NE", ["Northeast Corridor"; "Northeast Corrdr"]);
  ("NC", ["No Jersey Coast"]);
  ("PV", ["Pascack Valley"]);
  ("PR", ["Princeton Shuttle"]);
  ("RV", ["Raritan Valley"])
].

Definition linesByCode (ToLower : string → string) : gmap string Line :=
  makeMap ToLower Lines Line_Code.
Definition linesByName (ToLower : string → string) : gmap string Line :=
  makeMmap ToLower Lines
    (fun s => [Line_Name s] ++ aliases_of lineAliases (Line_Code s)).
Definition linesByAbbreviation (ToLower : string → string) : gmap string Line :=
  makeMmap ToLower Lines
    (fun s => [Line_Abbreviation s] ++ Line_OtherAbbrs s).

(** The [synthesize] closure of [FindLine]. *)
Definition synthesizeLine (code name : option string) : exec Line :=
  let out_Code := match code with None => "XX" | Some c => c end in
  let out_Name := match name with
                  | None => "Unknown " +:+ out_Code
                  | Some n => n
                  end in
  mret (mkLine out_Code out_Name ("XX" +:+ out_Code) (mkColor 0 0 0) []).

Definition FindLine (ToLower : string → string) : finderImpl := {|
  byCode := linesByCode ToLower;
  byName := linesByName ToLower;
  byAbbr := linesByAbbreviation ToLower;
  list_ := Lines;
  getCandidates := fun s => [Line_Name s; Line_Abbreviation s];
  synthesize := synthesizeLine;
  code := None;
  name := None;
|}.

(** A finder over a single entity whose only candidate string is its name,
    queried by name: the smallest instance of the fuzzy step. *)
Definition single_candidate_finder (candidate query : string)
  : @finderImpl string := {|
  byCode := ∅;
  byName := ∅;
  byAbbr := ∅;
  list_ := [candidate];
  getCandidates := fun s => [s];
  synthesize := fun _ _ => Return candidate;
  code := None;
  name := Some query;
|}.

(** ** errors/errors.go *)

(** The three sentinel errors, [RailDataError], and the errors built by
    [fmt.Errorf]: [WrapError prefix err] is [fmt.Errorf(prefix + "%w", err)];
    [ErrorString] is an error with no wrapped error ([fmt.Errorf] without
    [%w], or an error of net/http, io or encoding/json). *)
Inductive error : Type :=
  | BadCredentialsError
  | MissingCredentialsError
  | InvalidTokenError
  | RailDataError (message : string)
  | ErrorString (message : string)
  | WrapError (prefix : string) (wrapped : error).

Fixpoint Error (e : error) : string :=
  match e with
  | BadCredentialsError => "invalid username or password in request"
  | MissingCredentialsError => "missing or malformed credentials in request"
  | InvalidTokenError => "invalid token in request"
  | RailDataError message => message
  | ErrorString message => message
  | WrapError prefix wrapped => prefix +:+ Error wrapped
  end.

(** [errors.Is(err, InvalidTokenError)] on a non-nil [err]: the sentinel
    itself, or an error whose chain of wrapped errors reaches it. *)
Fixpoint Is_InvalidTokenError (err : error) : bool :=
  match err with
  | InvalidTokenError => true
  | WrapError _ wrapped => Is_InvalidTokenError wrapped
  | _ => false
  end.

(** A Go result pair [(out, err)] of which exactly one is non-nil. *)
Definition errors_Is_InvalidTokenError {O : Type} (r : error + O) : bool :=
  match r with
  | inl err => Is_InvalidTokenError err
  | inr _ => false
  end.

(** ** api/api.go *)

(** The request as it reaches the wire: [POST {apiBase}/{endpoint}] with one
    form field per entry and the [accept] header. *)
Record HttpRequest : Type := {
  endpoint : string;
  form : gmap string string;
  accept : string;
}.

(** [Body] is the outcome of [io.ReadAll(response.Body)]. *)
Record Response : Type := {
  StatusCode : Z;
  Status : string;
  Body : error + string;
}.

(** A method definition.  What Go obtains by reflection and from
    encoding/json is carried by the record: [SetToken] (sets the [Token]
    field when the request type has one), [objToMap] (the request's form
    fields) and [Unmarshal] (the decoder of the response type). *)
Record MethodDefinition (I O : Type) : Type := {
  Name : string;
  SetToken : I → string → I;
  objToMap : I → error + gmap string string;
  Unmarshal : string → error + O;
}.
Arguments Name {I O} _.
Arguments SetToken {I O} _ _ _.
Arguments objToMap {I O} _ _.
Arguments Unmarshal {I O} _ _.

Record GetTokenRequest : Type := { Username : string; Password : string }.
Record GetTokenResponse : Type := { Authenticated : string; UserToken : string }.
Record TokenRequest : Type := { Token : string }.

Section Api.
Context {I O : Type}.
(** Decoding of the error envelope: [Some msg] when the body is a JSON
    object [{"errorMessage": msg}] with no unknown field. *)
Variable decodeErrorMessage : string → option string.
Variable m : MethodDefinition I O.

(** [bytes.Buffer] writes, [JoinPath] on a parsed URL and
    [NewRequestWithContext] with method POST do not fail; the one failure
    of [createRequest] kept is that of [objToMap]. *)
Definition createRequest (input : I) : error + HttpRequest :=
  match objToMap m input with
  | inl err =>
    inl (WrapError ("could not convert a request object for method '"
                      +:+ Name m +:+ "': ") err)
  | inr fields =>
    inr {| endpoint := Name m; form := fields; accept := "text/plain" |}
  end.

Definition parseErrorResponse (response : Response) : error :=
  let ret := ErrorString ("received error status code for " +:+ Name m
                            +:+ ": " +:+ Status response) in
  match Body response with
  | inl _ => ret
  | inr b =>
    match decodeErrorMessage b with
    | None => ret
    | Some message =>
      if decide (message = "Invalid token.") then InvalidTokenError
      else RailDataError message
    end
  end.

Definition ParseResponse (response : Response) : error + O :=
  if decide (StatusCode response < 200 ∨ StatusCode response >= 300) then
    inl (parseErrorResponse response)
  else
    match Body response with
    | inl err => inl err
    | inr b =>
      if decide (len b = 0) then inl MissingCredentialsError
      else
        match Unmarshal m b with
        | inl err =>
          inl (WrapError ("could not unmarshal response for " +:+ Name m
                            +:+ ": ") err)
        | inr output => inr output
        end
    end.
End Api.

(** ** client.go *)

Record credentials : Type := { username : string; password : string }.

Section Client.
(** The server side of [http.Client.Do]: the state of the outside world
    and its answer to one request (a transport error or a response);
    [Listener] is [TokenUpdateListener]. *)
Context {World Listener : Type}.
Variable Do : World → HttpRequest → World * (error + Response).
Variable decodeErrorMessage : string → option string.
(** The encoding/json decoder for [GetTokenResponse]. *)
Variable Unmarshal_GetTokenResponse : string → error + GetTokenResponse.

(** [raildataClient] together with what its calls act upon: the world
    reached through [client] and [apiBase], the requests sent so far, and
    the listener goroutines started so far (listener, new token, previous
    token).  The mutex is part of the concurrent model below. *)
Record raildataClient : Type := {
  creds : option credentials;
  token : string;
  tokenUpdateListeners : list Listener;
  world : World;
  wire : list HttpRequest;
  goroutines : list (Listener * string * string);
}.

Definition set_token (s : raildataClient) (t : string) : raildataClient :=
  {| creds := creds s; token := t;
     tokenUpdateListeners := tokenUpdateListeners s; world := world s;
     wire := wire s; goroutines := goroutines s |}.

Definition go_listeners (s : raildataClient) (new old : string)
  : raildataClient :=
  {| creds := creds s; token := token s;
     tokenUpdateListeners := tokenUpdateListeners s; world := world s;
     wire := wire s;
     goroutines := goroutines s
                     ++ map (fun l => (l, new, old)) (tokenUpdateListeners s) |}.

(** [s.client.Do(req)] *)
Definition client_Do (s : raildataClient) (req : HttpRequest)
  : raildataClient * (error + Response) :=
  let '(w, r) := Do (world s) req in
  ({| creds := creds s; token := token s;
      tokenUpdateListeners := tokenUpdateListeners s; world := w;
      wire := wire s ++ [req]; goroutines := goroutines s |}, r).

(** [MethodDefinition.Request] *)
Definition Request {I O : Type} (m : MethodDefinition I O)
    (s : raildataClient) (input : I) : raildataClient * (error + O) :=
  match createRequest m input with
  | inl err => (s, inl err)
  | inr req =>
    let '(s, r) := client_Do s req in
    match r with
    | inl err =>
      (s, inl (WrapError ("error issuing request for method '"
                            +:+ Name m +:+ "': ") err))
    | inr resp => (s, ParseResponse decodeErrorMessage m resp)
    end
  end.

Definition GetToken_method : MethodDefinition GetTokenRequest GetTokenResponse := {|
  Name := "getToken";
  SetToken := fun input _ => input;
  objToMap := fun input =>
    inr (<["username" := Username input]> (<["password" := Password input]> ∅));
  Unmarshal := Unmarshal_GetTokenResponse;
|}.

Definition GetToken (s : raildataClient) : string := token s.

(** Lines 238-254 of [refreshToken]: the part run under the mutex once the
    stored token has been found equal to [oldToken]. *)
Definition issueToken (s : raildataClient) (c : credentials)
    (oldToken : string) : raildataClient * option error :=
  let input := {| Username := username c; Password := password c |} in
  let '(s, r) := Request GetToken_method s input in
  match r with
  | inl err => (s, Some err)
  | inr output =>
    if decide (Authenticated output ≠ "True") then (s, Some BadCredentialsError)
    else (go_listeners (set_token s (UserToken output))
                       (UserToken output) oldToken, None)
  end.

(** [refreshToken], run without interference: between [Lock] and the
    deferred [Unlock] no other caller reads or writes the token. *)
Definition refreshToken (s : raildataClient) (oldToken : string)
  : raildataClient * option error :=
  match creds s with
  | None => (s, Some MissingCredentialsError)
  | Some c =>
    if decide (token s ≠ oldToken) then (s, None)
    else issueToken s c oldToken
  end.

(** The generic request pipeline. *)
Definition request {I O : Type} (method : MethodDefinition I O)
    (s : raildataClient) (input : I) : raildataClient * (error + O) :=
  let token := GetToken s in
  let input := SetToken method input token in
  let '(s, r) := Request method s input in
  if negb (errors_Is_InvalidTokenError r) then (s, r)
  else
    let '(s, err) := refreshToken s token in
    match err with
    | Some err => (s, inl err)
    | None =>
      let token := GetToken s in
      let input := SetToken method input token in
      Request method s input
    end.

(** The states a client goes through: every operation on a client is made
    of calls of the Request Executor and of [refreshToken] ([request] is
    one of the former, then possibly one of the latter and one more of the
    former), and under the mutex a call of [refreshToken] acts on the token
    as a whole.  [evolves s0 s]: the client that was in state [s0] is in
    state [s] after some such calls, by whatever callers. *)
Inductive evolves : raildataClient → raildataClient → Prop :=
  | evolves_refl s : evolves s s
  | evolves_Request {I O : Type} (m : MethodDefinition I O) s0 s input s' r :
      evolves s0 s → Request m s input = (s', r) → evolves s0 s'
  | evolves_refreshToken s0 s old s' err :
      evolves s0 s → refreshToken s old = (s', err) → evolves s0 s'.

(** *** Concurrent callers of [refreshToken]

    Each caller is a thread running [refreshToken(oldToken)]; a thread is at
    one of the program points below.  [tokenMutex] is held by at most one
    thread, and a thread waiting at [Lock] cannot move while another holds
    it.  The token is read and written only by the holder, so interleaving
    the steps of the threads is the semantics of the program. *)
Inductive pc : Type :=
  | AtEntry                 (* line 228 *)
  | AtLock                  (* line 232 *)
  | AtCheck                 (* line 234, mutex held *)
  | AtCall                  (* line 242, mutex held *)
  | Returned (err : option error).

(** Between [Lock] and the deferred [Unlock]. *)
Definition holds_mutex (p : pc) : bool :=
  match p with
  | AtCheck | AtCall => true
  | _ => false
  end.

(** The steps a caller at [p] has still to take, at most. *)
Definition steps_left (p : pc) : nat :=
  match p with
  | AtEntry => 4
  | AtLock => 3
  | AtCheck => 2
  | AtCall => 1
  | Returned _ => 0
  end.

Record caller : Type := { oldToken : string; at_ : pc }.

Record shared : Type := {
  client_ : raildataClient;
  tokenMutex : option nat;
  callers : list caller;
}.

Definition move (σ : shared) (i : nat) (s : raildataClient)
    (mutex : option nat) (p : pc) : shared :=
  {| client_ := s; tokenMutex := mutex;
     callers := alter (fun c => {| oldToken := oldToken c; at_ := p |}) i
                      (callers σ) |}.

(** One step of caller [i]; [None] when it cannot move (it has returned,
    it waits for the mutex, or there is no such caller). *)
Definition step (i : nat) (σ : shared) : option shared :=
  c ← callers σ !! i;
  let s := client_ σ in
  match at_ c with
  | AtEntry =>
    match creds s with
    | None => Some (move σ i s (tokenMutex σ)
                         (Returned (Some MissingCredentialsError)))
    | Some _ => Some (move σ i s (tokenMutex σ) AtLock)
    end
  | AtLock =>
    match tokenMutex σ with
    | None => Some (move σ i s (Some i) AtCheck)
    | Some _ => None
    end
  | AtCheck =>
    if decide (token s ≠ oldToken c) then Some (move σ i s None (Returned None))
    else Some (move σ i s (tokenMutex σ) AtCall)
  | AtCall =>
    match creds s with
    | None => None (* not reached: the credentials were checked on entry *)
    | Some cr =>
      let '(s', err) := issueToken s cr (oldToken c) in
      Some (move σ i s' None (Returned err))
    end
  | Returned _ => None
  end.

(** A schedule names the caller that moves next; a caller that cannot
    move leaves the state as it is. *)
Definition run (schedule : list nat) (σ : shared) : shared :=
  foldl (fun σ i => default σ (step i σ)) σ schedule.

(** [n] callers enter [refreshToken] with the same observed token. *)
Definition enter (s : raildataClient) (n : nat) (observed : string) : shared :=
  {| client_ := s; tokenMutex := None;
     callers := replicate n {| oldToken := observed; at_ := AtEntry |} |}.

(** From [s] to [s'] at most [n] requests were sent. *)
Definition sends (s s' : raildataClient) (n : nat) : Prop :=
  ∃ sent, wire s' = wire s ++ sent ∧ (length sent ≤ n)%nat.

(** The requests sent to the token-issuance endpoint. *)
Definition getToken_calls (s : raildataClient) : list HttpRequest :=
  filter (fun req => endpoint req = "getToken") (wire s).

(** The steps the callers have still to take, at most. *)
Definition remaining (σ : shared) : nat :=
  sum_list_with (fun c => steps_left (at_ c)) (callers σ).

(** The token-issuance call made from the state [s] with the credentials
    [c] is answered, authenticates and issues a token other than [t]. *)
Definition issues_fresh_token (s : raildataClient) (c : credentials)
    (t : string) : Prop :=
  ∃ s1 output,
    Request GetToken_method s
      {| Username := username c; Password := password c |} = (s1, inr output) ∧
    Authenticated output = "True" ∧ UserToken output ≠ t.

(** The invariant of the callers that entered [refreshToken] with the stale
    token [t] on the client [s] with credentials [c]: the callers between
    [Lock] and [Unlock] are exactly the holder of the mutex, and the holder
    is a caller; a caller about to call the endpoint finds the client as it
    was at the start; a caller that has returned has returned [nil], and
    the stored token is then no longer the stale one; and the client is
    either as it was at the start, or as the one call of the endpoint left
    it, with a token other than [t]. *)
Definition storm_invariant (s : raildataClient) (c : credentials)
    (t : string) (σ : shared) : Prop :=
  creds (client_ σ) = Some c ∧
  (∀ i caller, callers σ !! i = Some caller →
     oldToken caller = t ∧
     (holds_mutex (at_ caller) = true ↔ tokenMutex σ = Some i) ∧
     match at_ caller with
     | AtCall => client_ σ = s
     | Returned err => err = None ∧ token (client_ σ) ≠ t
     | _ => True
     end) ∧
  (∀ i, tokenMutex σ = Some i → is_Some (callers σ !! i)) ∧
  (client_ σ = s ∨
   (issueToken s c t = (client_ σ, None) ∧ token (client_ σ) ≠ t ∧
    length (getToken_calls (client_ σ)) = S (length (getToken_calls s)))).
End Client.

(** ** Test servers, after client_test.go *)

Record ValidTokenResponse : Type := { ValidToken : bool; UserID : string }.

Definition IsValidToken (Unmarshal_ValidTokenResponse
                           : string → error + ValidTokenResponse)
  : MethodDefinition TokenRequest ValidTokenResponse := {|
  Name := "isValidToken";
  SetToken := fun _ token => {| Token := token |};
  objToMap := fun input => inr (<["token" := Token input]> ∅);
  Unmarshal := Unmarshal_ValidTokenResponse;
|}.

(** The double quote character. *)
Definition dq : string := String (ascii_of_nat 34) EmptyString.

(** The JSON bodies the test servers send. *)
Definition error_body (msg : string) : string :=
  "{" +:+ dq +:+ "errorMessage" +:+ dq +:+ ": " +:+ dq +:+ msg +:+ dq +:+ "}".
Definition token_body (authenticated userToken : string) : string :=
  "{" +:+ dq +:+ "Authenticated" +:+ dq +:+ ": " +:+ dq +:+ authenticated +:+ dq
      +:+ ", " +:+ dq +:+ "UserToken" +:+ dq +:+ ": " +:+ dq +:+ userToken +:+ dq
      +:+ "}".
Definition valid_body : string :=
  "{" +:+ dq +:+ "validToken" +:+ dq +:+ ":true," +:+ dq +:+ "userID" +:+ dq
      +:+ ":" +:+ dq +:+ "the-user-id" +:+ dq +:+ "}".

(** [sendError] and [sendJson] of client_test.go. *)
Definition sendError (msg : string) : Response :=
  {| StatusCode := 500; Status := "500 Internal Server Error";
     Body := inr (error_body msg) |}.
Definition sendJson (obj : string) : Response :=
  {| StatusCode := 200; Status := "200 OK"; Body := inr obj |}.

(** What encoding/json yields on the bodies above. *)
Definition test_decodeErrorMessage (b : string) : option string :=
  if decide (b = error_body "Invalid token.") then Some "Invalid token."
  else None.
Definition test_Unmarshal_GetTokenResponse (b : string)
  : error + GetTokenResponse :=
  if decide (b = token_body "True" "newtoken") then
    inr {| Authenticated := "True"; UserToken := "newtoken" |}
  else if decide (b = token_body "False" "") then
    inr {| Authenticated := "False"; UserToken := "" |}
  else inl (ErrorString "invalid character").
Definition test_Unmarshal_ValidTokenResponse (b : string)
  : error + ValidTokenResponse :=
  if decide (b = valid_body) then
    inr {| ValidToken := true; UserID := "the-user-id" |}
  else inl (ErrorString "invalid character").

(** The server of TestRenewTokenWhenRequired: it rejects "oldtoken" and
    issues "newtoken". *)
Definition renewing_server (w : unit) (req : HttpRequest)
  : unit * (error + Response) :=
  if decide (endpoint req = "getToken") then
    (w, inr (sendJson (token_body "True" "newtoken")))
  else if decide (form req !! "token" = Some "oldtoken") then
    (w, inr (sendError "Invalid token."))
  else (w, inr (sendJson valid_body)).

(** A server that issues "newtoken" and rejects every token. *)
Definition rejecting_server (w : unit) (req : HttpRequest)
  : unit * (error + Response) :=
  if decide (endpoint req = "getToken") then
    (w, inr (sendJson (token_body "True" "newtoken")))
  else (w, inr (sendError "Invalid token.")).

(** The server of TestRenewTokenPropagatesErrorOnBadCredentials. *)
Definition bad_credentials_server (w : unit) (req : HttpRequest)
  : unit * (error + Response) :=
  if decide (endpoint req = "getToken") then
    (w, inr (sendJson (token_body "False" "")))
  else (w, inr (sendError "Invalid token.")).

(** A server that checks the credentials: it issues "newtoken" to the user
    of the tests and to nobody else, and rejects "oldtoken". *)
Definition checking_server (w : unit) (req : HttpRequest)
  : unit * (error + Response) :=
  if decide (endpoint req = "getToken") then
    if decide (form req !! "username" = Some "the-user-id"
               ∧ form req !! "password" = Some "the-password")
    then (w, inr (sendJson (token_body "True" "newtoken")))
    else (w, inr (sendJson (token_body "False" "")))
  else if decide (form req !! "token" = Some "oldtoken") then
    (w, inr (sendError "Invalid token."))
  else (w, inr (sendJson valid_body)).

Definition test_credentials : credentials :=
  {| username := "the-user-id"; password := "the-password" |}.

(** [NewClient(WithToken(t), ...)], with or without [WithCredentials]. *)
Definition test_client (c : option credentials) (t : string)
  : @raildataClient unit nat :=
  {| creds := c; token := t; tokenUpdateListeners := [0%nat]; world := tt;
     wire := []; goroutines := [] |}.

(** * Properties *)

(** ** The loops *)

Lemma iterate_invariant {St : Type} (P : Z → St → Prop) body n lo (s : St) :
  P lo s →
  (∀ i s, lo ≤ i < lo + Z.of_nat n → P i s →
          ∃ s', body i s = Return s' ∧ P (i + 1) s') →
  ∃ s', iterate n lo body s = Return s' ∧ P (lo + Z.of_nat n) s'.
Proof.
  revert lo s. induction n as [|n IH]; intros lo s Hs Hbody.
  { exists s. split; [done|]. by replace (lo + Z.of_nat 0) with lo by lia. }
  destruct (Hbody lo s) as (s1 & Hs1 & HP1); [lia|done|].
  destruct (IH (lo + 1) s1) as (s2 & Hs2 & HP2); [done|..].
  { intros i s0 Hi. apply Hbody. lia. }
  exists s2. split.
  - simpl. rewrite Hs1. exact Hs2.
  - by replace (lo + Z.of_nat (S n)) with (lo + 1 + Z.of_nat n) by lia.
Qed.

Lemma for_range_invariant {St : Type} (P : Z → St → Prop) body lo hi (s : St) :
  lo ≤ hi → P lo s →
  (∀ i s, lo ≤ i < hi → P i s → ∃ s', body i s = Return s' ∧ P (i + 1) s') →
  ∃ s', for_range lo hi body s = Return s' ∧ P hi s'.
Proof.
  intros Hle Hs Hbody. unfold for_range.
  destruct (iterate_invariant P body (Z.to_nat (hi - lo)) lo s) as (s' & ? & ?);
    [done|..].
  { intros i s0 Hi. apply Hbody. lia. }
  exists s'. split; [done|].
  by replace hi with (lo + Z.of_nat (Z.to_nat (hi - lo))) by lia.
Qed.

(** ** Longest common subsequences *)

Section LCS_facts.
Context {A : Type} `{EqDecision A}.
Implicit Types a b s : list A.

Lemma lcs_nil_r a : lcs a [] = 0%nat.
Proof. by destruct a. Qed.

Lemma lcs_cons x a y b :
  lcs (x :: a) (y :: b) =
    if decide (x = y) then S (lcs a b)
    else Nat.max (lcs a (y :: b)) (lcs (x :: a) b).
Proof. reflexivity. Qed.

Lemma sublist_tail x y s (l : list A) :
  x :: s `sublist_of` y :: l → s `sublist_of` l.
Proof.
  intros Hs. apply sublist_cons_r in Hs as [Hs | (s' & Heq & Hs)].
  - apply sublist_cons_l in Hs as (k1 & k2 & -> & Hs).
    by apply sublist_inserts_l, sublist_cons.
  - by simplify_eq.
Qed.

Lemma lcs_witness a b :
  ∃ s, common_subsequence s a b ∧ length s = lcs a b.
Proof.
  revert b. induction a as [|x a IHa]; intros b.
  { exists []. repeat split; apply sublist_nil_l. }
  induction b as [|y b IHb].
  { exists []. repeat split; apply sublist_nil_l. }
  rewrite lcs_cons. case_decide as Hxy.
  - subst y. destruct (IHa b) as (s & [Ha Hb] & Hl).
    exists (x :: s). repeat split; [by constructor..|]. simpl; lia.
  - destruct (Nat.max_spec (lcs a (y :: b)) (lcs (x :: a) b))
      as [[_ ->]|[_ ->]].
    + destruct IHb as (s & [Ha Hb] & Hl).
      exists s. repeat split; [done|by constructor|done].
    + destruct (IHa (y :: b)) as (s & [Ha Hb] & Hl).
      exists s. repeat split; [by constructor|done|done].
Qed.

Lemma lcs_upper a b s :
  common_subsequence s a b → (length s ≤ lcs a b)%nat.
Proof.
  revert b s. induction a as [|x a IHa]; intros b s [Ha Hb].
  { apply sublist_nil_r in Ha as ->. simpl; lia. }
  revert s Ha Hb. induction b as [|y b IHb]; intros s Ha Hb.
  { apply sublist_nil_r in Hb as ->. simpl; lia. }
  rewrite lcs_cons. case_decide as Hxy.
  - destruct s as [|z s]; [simpl; lia|].
    apply sublist_tail in Ha, Hb. simpl.
    specialize (IHa b s (conj Ha Hb)). lia.
  - apply sublist_cons_r in Ha as [Ha | (sa & -> & Ha)].
    { specialize (IHa (y :: b) s (conj Ha Hb)). lia. }
    apply sublist_cons_r in Hb as [Hb | (sb & ? & Hb)]; [|by simplify_eq].
    assert (x :: sa `sublist_of` x :: a) as Ha' by by constructor.
    specialize (IHb _ Ha' Hb). lia.
Qed.

Lemma lcs_LCS_length a b : LCS_length a b (lcs a b).
Proof. split; [apply lcs_witness|apply lcs_upper]. Qed.

Lemma LCS_length_unique a b n : LCS_length a b n → n = lcs a b.
Proof.
  intros [(s & Hs & <-) Hup]. apply Nat.le_antisymm.
  - by apply lcs_upper.
  - destruct (lcs_witness a b) as (s' & Hs' & <-). by apply Hup.
Qed.

Lemma sublist_reverse (l k : list A) :
  l `sublist_of` k → reverse l `sublist_of` reverse k.
Proof.
  induction 1 as [|x l k _ IH|x l k _ IH]; [done|..]; rewrite !reverse_cons.
  - by apply sublist_app.
  - by apply sublist_inserts_r.
Qed.

Lemma lcs_reverse a b : lcs (reverse a) (reverse b) = lcs a b.
Proof.
  apply LCS_length_unique. split.
  - destruct (lcs_witness (reverse a) (reverse b)) as (s & [Ha Hb] & Hl).
    exists (reverse s). split; [|by rewrite length_reverse].
    split; [rewrite <-(reverse_involutive a)|rewrite <-(reverse_involutive b)];
      by apply sublist_reverse.
  - intros s [Ha Hb]. rewrite <-(length_reverse s).
    apply lcs_upper. split; by apply sublist_reverse.
Qed.

Lemma lcs_comm a b : lcs a b = lcs b a.
Proof.
  apply LCS_length_unique. split.
  - destruct (lcs_witness a b) as (s & [Ha Hb] & Hl). by exists s.
  - intros s [Ha Hb]. by apply lcs_upper.
Qed.

Lemma lcs_cons_ge x a b : (lcs a b ≤ lcs (x :: a) b)%nat.
Proof.
  destruct (lcs_witness a b) as (s & [Ha Hb] & <-).
  apply lcs_upper. split; [by constructor|done].
Qed.

Lemma lcs_cons_le x a b : (lcs (x :: a) b ≤ S (lcs a b))%nat.
Proof.
  destruct (lcs_witness (x :: a) b) as (s & [Ha Hb] & <-).
  apply sublist_cons_r in Ha as [Ha | (s' & -> & Ha)].
  - pose proof (lcs_upper a b s (conj Ha Hb)). lia.
  - assert (s' `sublist_of` b) as Hb'.
    { etrans; [|exact Hb]. by constructor. }
    pose proof (lcs_upper a b s' (conj Ha Hb')). simpl. lia.
Qed.

Lemma lcs_snoc a x b y :
  lcs (a ++ [x]) (b ++ [y]) =
    if decide (x = y) then S (lcs a b)
    else Nat.max (lcs a (b ++ [y])) (lcs (a ++ [x]) b).
Proof.
  rewrite <-lcs_reverse, !reverse_snoc, lcs_cons.
  case_decide; [by rewrite lcs_reverse|].
  by rewrite <-!reverse_snoc, !lcs_reverse.
Qed.

Lemma lcs_snoc_ge a x b : (lcs a b ≤ lcs (a ++ [x]) b)%nat.
Proof.
  rewrite <-(lcs_reverse a), <-(lcs_reverse (a ++ [x])), reverse_snoc.
  apply lcs_cons_ge.
Qed.

Lemma lcs_snoc_le a x b : (lcs (a ++ [x]) b ≤ S (lcs a b))%nat.
Proof.
  rewrite <-(lcs_reverse a), <-(lcs_reverse (a ++ [x])), reverse_snoc.
  apply lcs_cons_le.
Qed.

(** What a cell computes from its three neighbours is the value of the
    recurrence. *)
Lemma lcs_cell a x b y :
  Z.max (Z.max (Z.max
      (if decide (x = y) then 1 + Z.of_nat (lcs a b) else 0)
      (Z.of_nat (lcs (a ++ [x]) b)))
      (Z.of_nat (lcs a (b ++ [y]))))
      (Z.of_nat (lcs a b))
  = Z.of_nat (lcs (a ++ [x]) (b ++ [y])).
Proof.
  rewrite lcs_snoc.
  pose proof (lcs_snoc_ge a x b).
  pose proof (lcs_snoc_le a x b).
  pose proof (lcs_snoc_ge b y a) as Hb1.
  pose proof (lcs_snoc_le b y a) as Hb2.
  rewrite !(lcs_comm b), !(lcs_comm (b ++ [y])) in Hb1, Hb2.
  case_decide; lia.
Qed.
End LCS_facts.

(** ** [fuzzyMatch] *)

Lemma length_bytes s : Z.of_nat (length (bytes s)) = len s.
Proof. unfold len. f_equal. induction s; simpl; congruence. Qed.

Lemma len_nonneg s : 0 ≤ len s.
Proof. unfold len. lia. Qed.

Lemma get_bytes s n : String.get n s = bytes s !! n.
Proof. revert n. induction s as [|c s IH]; intros [|n]; simpl; auto. Qed.

Lemma byte_at_bytes s i x :
  0 ≤ i → bytes s !! Z.to_nat i = Some x → byte_at s i = Return x.
Proof.
  intros Hi Hx. unfold byte_at. rewrite decide_True, get_bytes, Hx; done.
Qed.

Lemma slice_get_lookup (a : list Z) i v :
  0 ≤ i → a !! Z.to_nat i = Some v → slice_get a i = Return v.
Proof. intros Hi Hv. unfold slice_get. rewrite decide_True, Hv; done. Qed.

Lemma table_ok_make input candidate :
  ∃ m, make ((len input + 1) * (len candidate + 1)) = Return m ∧
       table_ok input candidate 1 1 m.
Proof.
  pose proof (len_nonneg input). pose proof (len_nonneg candidate).
  eexists. split; [unfold make; rewrite decide_True by nia; done|].
  split; [rewrite length_replicate; nia|].
  intros r c Hr Hc Hcase.
  rewrite lookup_replicate_2 by nia. f_equal. unfold cell_value.
  assert (r = 0 ∨ c = 0) as [-> | ->] by lia;
    change (Z.to_nat 0) with 0%nat; rewrite take_0.
  - by rewrite lcs_nil_r.
  - done.
Qed.

Lemma table_ok_cell input candidate row col m :
  1 ≤ row < len candidate + 1 → 1 ≤ col < len input + 1 →
  table_ok input candidate row col m →
  ∃ m', fuzzyMatch_cell input candidate (len input + 1) row col m = Return m' ∧
        table_ok input candidate row (col + 1) m'.
Proof.
  intros Hrow Hcol [Hlen Hm].
  set (rs := len input + 1) in *. set (cs := len candidate + 1) in *.
  destruct (lookup_lt_is_Some_2 (bytes input) (Z.to_nat (col - 1))) as [x Hx].
  { pose proof (length_bytes input). lia. }
  destruct (lookup_lt_is_Some_2 (bytes candidate) (Z.to_nat (row - 1)))
    as [y Hy].
  { pose proof (length_bytes candidate). lia. }
  assert (slice_get m (row * rs + col - rs - 1)
          = Return (cell_value input candidate (row - 1) (col - 1))) as Hd.
  { apply slice_get_lookup; [nia|].
    replace (row * rs + col - rs - 1) with ((row - 1) * rs + (col - 1)) by lia.
    apply Hm; lia. }
  assert (slice_get m (row * rs + col - rs)
          = Return (cell_value input candidate (row - 1) col)) as Hu.
  { apply slice_get_lookup; [nia|].
    replace (row * rs + col - rs) with ((row - 1) * rs + col) by lia.
    apply Hm; lia. }
  assert (slice_get m (row * rs + col - 1)
          = Return (cell_value input candidate row (col - 1))) as Hl.
  { apply slice_get_lookup; [nia|].
    replace (row * rs + col - 1) with (row * rs + (col - 1)) by lia.
    apply Hm; lia. }
  assert (take (Z.to_nat col) (bytes input)
          = take (Z.to_nat (col - 1)) (bytes input) ++ [x]) as Hta.
  { replace (Z.to_nat col) with (S (Z.to_nat (col - 1))) by lia.
    by apply take_S_r. }
  assert (take (Z.to_nat row) (bytes candidate)
          = take (Z.to_nat (row - 1)) (bytes candidate) ++ [y]) as Htb.
  { replace (Z.to_nat row) with (S (Z.to_nat (row - 1))) by lia.
    by apply take_S_r. }
  eexists. split.
  - unfold fuzzyMatch_cell. fold rs.
    rewrite (byte_at_bytes input (col - 1) x) by (exact Hx || lia).
    rewrite (byte_at_bytes candidate (row - 1) y) by (exact Hy || lia). simpl.
    rewrite Hu, Hl, Hd.
    assert ((if decide (x = y)
             then d ← Return (cell_value input candidate (row - 1) (col - 1));
                  mret (1 + d)
             else mret 0)
            = Return (if decide (x = y)
                      then 1 + cell_value input candidate (row - 1) (col - 1)
                      else 0)) as -> by by case_decide.
    simpl. unfold slice_set. rewrite decide_True by nia. reflexivity.
  - split; [rewrite length_insert; done|].
    intros r c Hr Hc Hcase.
    destruct (decide (r = row ∧ c = col)) as [[-> ->]|Hne].
    + rewrite list_lookup_insert_eq by nia. f_equal.
      unfold cell_value. rewrite Hta, Htb. apply lcs_cell.
    + assert (row * rs + col ≠ r * rs + c) as Hidx.
      { destruct (Z.lt_trichotomy r row) as [Hlt|[->|Hgt]]; [|lia|].
        - assert ((r + 1) * rs ≤ row * rs) by nia. lia.
        - assert ((row + 1) * rs ≤ r * rs) by nia. lia. }
      rewrite list_lookup_insert_ne by nia. apply Hm; lia.
Qed.

Lemma table_ok_row input candidate row m :
  1 ≤ row < len candidate + 1 →
  table_ok input candidate row 1 m →
  ∃ m', for_range 1 (len input + 1) (fun col matchLen =>
          fuzzyMatch_cell input candidate (len input + 1) row col matchLen) m
        = Return m' ∧
        table_ok input candidate (row + 1) 1 m'.
Proof.
  intros Hrow Hm. pose proof (len_nonneg input).
  destruct (for_range_invariant (table_ok input candidate row)
    (fun col matchLen =>
       fuzzyMatch_cell input candidate (len input + 1) row col matchLen)
    1 (len input + 1) m) as (m' & Hrun & [Hlen Hm']); [lia|done|..].
  { intros col m0 Hcol Hm0. by apply table_ok_cell. }
  exists m'. split; [done|]. split; [done|].
  intros r c Hr Hc Hcase. apply Hm'; lia.
Qed.

Lemma fuzzyMatch_lcs input candidate :
  fuzzyMatch input candidate
  = Return (Z.of_nat (lcs (bytes input) (bytes candidate))).
Proof.
  unfold fuzzyMatch.
  pose proof (len_nonneg input). pose proof (len_nonneg candidate).
  destruct (table_ok_make input candidate) as (m0 & -> & Hm0). simpl.
  destruct (for_range_invariant (fun row => table_ok input candidate row 1)
    (fun row matchLen => for_range 1 (len input + 1) (fun col matchLen =>
       fuzzyMatch_cell input candidate (len input + 1) row col matchLen)
       matchLen)
    1 (len candidate + 1) m0) as (m & -> & [Hlen Hm]); [lia|done|..].
  { intros row m1 Hrow Hm1. by apply table_ok_row. }
  simpl. apply slice_get_lookup; [nia|].
  replace ((len input + 1) * (len candidate + 1) - 1)
    with (len candidate * (len input + 1) + len input) by lia.
  rewrite Hm by lia. f_equal. unfold cell_value.
  rewrite <-!length_bytes, !Nat2Z.id, !firstn_all. done.
Qed.

(** C6.  For every pair of strings, [fuzzyMatch] returns (it does not
    panic), and what it returns is the length of a longest common
    subsequence of the two strings taken as byte sequences: some common
    subsequence has that length and none is longer.  That number is also the
    value of the textbook LCS recursion [lcs]. *)
Theorem fuzzyMatch_is_LCS_length (input candidate : string) :
  ∃ n : nat,
    fuzzyMatch input candidate = Return (Z.of_nat n) ∧
    LCS_length (bytes input) (bytes candidate) n ∧
    n = lcs (bytes input) (bytes candidate).
Proof.
  exists (lcs (bytes input) (bytes candidate)).
  split; [apply fuzzyMatch_lcs|]. split; [apply lcs_LCS_length|done].
Qed.

(** ** [fuzzyFind] and [Search] *)

Section Finder_facts.
Context {T : Type}.
Variable ToLower : string → string.
Implicit Types (f : @finderImpl T) (st : option T * Z * Z).

Lemma fuzzyFind_step_spec input item candidate st :
  fuzzyFind_step ToLower input item candidate st =
    Return (let '(best, matchLen, strLen) := st in
            let ml := score ToLower input candidate in
            if bool_decide (ml > matchLen)
               || (bool_decide (ml = matchLen)
                   && bool_decide (len (ToLower candidate) < strLen))
            then (Some item, ml, len (ToLower candidate))
            else (best, matchLen, strLen)).
Proof.
  destruct st as [[best matchLen] strLen]. unfold fuzzyFind_step.
  rewrite fuzzyMatch_lcs. simpl. fold (score ToLower input candidate).
  by destruct (_ || _).
Qed.

Lemma best_so_far_step input seen item candidate st :
  best_so_far ToLower input seen st →
  ∃ st', fuzzyFind_step ToLower input item candidate st = Return st' ∧
         best_so_far ToLower input (seen ++ [(item, candidate)]) st'.
Proof.
  intros Hst. eexists. split; [apply fuzzyFind_step_spec|].
  destruct st as [[best matchLen] strLen].
  destruct Hst as (Hmax & Htie & Hbest). simpl.
  assert (0 ≤ score ToLower input candidate) by (unfold score; lia).
  pose proof (len_nonneg (ToLower candidate)).
  destruct (_ || _) eqn:Hupd; simpl.
  - apply orb_true_iff in Hupd.
    rewrite andb_true_iff, !bool_decide_eq_true in Hupd.
    split_and!.
    + intros p [Hp | ->%list_elem_of_singleton]%elem_of_app; simpl; [|lia].
      specialize (Hmax p Hp). lia.
    + intros p [Hp | ->%list_elem_of_singleton]%elem_of_app Hsc; simpl; [|lia].
      specialize (Hmax p Hp). specialize (Htie p Hp). lia.
    + right. split; [lia|]. exists (item, candidate).
      split; [apply elem_of_app; right; by apply list_elem_of_singleton|done].
  - apply orb_false_iff in Hupd.
    rewrite andb_false_iff, !bool_decide_eq_false in Hupd.
    split_and!.
    + intros p [Hp | ->%list_elem_of_singleton]%elem_of_app; simpl; [|lia].
      by apply Hmax.
    + intros p [Hp | ->%list_elem_of_singleton]%elem_of_app Hsc; simpl in *; [|lia].
      by apply Htie.
    + destruct Hbest as [?|(? & p & Hp & ?)]; [by left|right].
      split; [done|]. exists p. split; [|done]. apply elem_of_app; by left.
Qed.

Lemma best_so_far_candidates input seen item cands st :
  best_so_far ToLower input seen st →
  ∃ st', for_each cands (fuzzyFind_step ToLower input item) st = Return st' ∧
         best_so_far ToLower input (seen ++ (pair item <$> cands)) st'.
Proof.
  revert seen st. induction cands as [|c cands IH]; intros seen st Hst.
  { exists st. by rewrite app_nil_r. }
  destruct (best_so_far_step input seen item c st Hst) as (st1 & Hrun1 & Hst1).
  destruct (IH _ _ Hst1) as (st2 & Hrun2 & Hst2).
  exists st2. split; [simpl; by rewrite Hrun1|].
  by rewrite <-app_assoc in Hst2.
Qed.

Lemma best_so_far_items input getCandidates seen items st :
  best_so_far ToLower input seen st →
  ∃ st', for_each items (fun item st =>
           for_each (getCandidates item) (fuzzyFind_step ToLower input item) st)
           st = Return st' ∧
         best_so_far ToLower input (seen ++ candidates_of items getCandidates) st'.
Proof.
  revert seen st. induction items as [|item items IH]; intros seen st Hst.
  { exists st. by rewrite app_nil_r. }
  destruct (best_so_far_candidates input seen item (getCandidates item) st Hst)
    as (st1 & Hrun1 & Hst1).
  destruct (IH _ _ Hst1) as (st2 & Hrun2 & Hst2).
  exists st2. split; [simpl; by rewrite Hrun1|].
  by rewrite <-app_assoc in Hst2.
Qed.

Lemma elem_of_candidates_of (items : list T) getCandidates (p : T * string) :
  p ∈ candidates_of items getCandidates ↔
  p.1 ∈ items ∧ p.2 ∈ getCandidates p.1.
Proof.
  unfold candidates_of. rewrite list_elem_of_bind. split.
  - intros (item & Hp & Hitem). apply list_elem_of_fmap in Hp as (c & -> & Hc).
    done.
  - intros [Hitem Hc]. exists p.1. split; [|done].
    apply list_elem_of_fmap. exists p.2. by destruct p.
Qed.

(** [fuzzyFind] returns the largest LCS length over all candidate strings
    of all entities, with an entity that reaches it through a shortest such
    candidate; or 0 and [nil] when no candidate has a byte in common with
    the input. *)
Lemma fuzzyFind_spec input (items : list T) getCandidates :
  ∃ best matchLen,
    fuzzyFind ToLower input items getCandidates = Return (best, matchLen) ∧
    (∀ item c, item ∈ items → c ∈ getCandidates item →
               score ToLower input c ≤ matchLen) ∧
    ((matchLen = 0 ∧ best = None) ∨
     (0 < matchLen ∧ ∃ item c,
        item ∈ items ∧ c ∈ getCandidates item ∧ best = Some item ∧
        score ToLower input c = matchLen ∧
        ∀ item' c', item' ∈ items → c' ∈ getCandidates item' →
                    score ToLower input c' = matchLen →
                    len (ToLower c) ≤ len (ToLower c'))).
Proof.
  destruct (best_so_far_items input getCandidates [] items (None, 0, 0))
    as ([[best matchLen] strLen] & Hrun & Hmax & Htie & Hbest).
  { split_and!; [intros p Hp; by apply elem_of_nil in Hp..|by left]. }
  exists best, matchLen. unfold fuzzyFind. rewrite Hrun. split; [done|].
  simpl in *. split.
  - intros item c Hitem Hc.
    apply (Hmax (item, c)), elem_of_candidates_of. done.
  - destruct Hbest as [(-> & -> & _)|(Hpos & [item c] & Hp & -> & Hsc & <-)];
      [by left|right].
    apply elem_of_candidates_of in Hp as [Hitem Hc].
    split; [done|]. exists item, c. split_and!; try done.
    intros item' c' Hitem' Hc' Hsc'.
    apply (Htie (item', c')); [|done]. by apply elem_of_candidates_of.
Qed.

Lemma quot_4_floor (n : string) : Z.quot (len n) 4 = len n `div` 4.
Proof. apply Z.quot_div_nonneg; [apply len_nonneg|lia]. Qed.

Lemma Search_name_fuzzy f n :
  byName f !! ToLower n = None →
  byAbbr f !! ToLower n = None →
  ∃ best matchLen,
    fuzzyFind ToLower (ToLower n) (list_ f) (getCandidates f)
      = Return (best, matchLen) ∧
    Search_name ToLower f n =
      Return (if bool_decide (2 < matchLen ∧ len (ToLower n) `div` 4 ≤ matchLen)
              then (best, true) else (None, false)).
Proof.
  intros HbyName HbyAbbr.
  destruct (fuzzyFind_spec (ToLower n) (list_ f) (getCandidates f))
    as (best & matchLen & Hrun & _).
  exists best, matchLen. split; [done|].
  unfold Search_name. rewrite HbyName, HbyAbbr, Hrun. simpl.
  rewrite quot_4_floor.
  destruct (decide (2 < matchLen ∧ len (ToLower n) `div` 4 ≤ matchLen))
    as [[??]|Hno].
  - rewrite (bool_decide_eq_true_2 (_ ∧ _)) by done.
    rewrite (bool_decide_eq_true_2 (_ > _)) by lia.
    rewrite (bool_decide_eq_true_2 (_ >= _)) by lia. done.
  - rewrite (bool_decide_eq_false_2 (_ ∧ _)) by done.
    destruct (decide (2 < matchLen)).
    + rewrite (bool_decide_eq_false_2 (_ >= _)) by lia.
      by rewrite andb_false_r.
    + by rewrite (bool_decide_eq_false_2 (_ > _)) by lia.
Qed.

(** C5.  When [Search] reaches its fuzzy step (a name is given, and the
    code table, the name/alias table and the abbreviation table all miss),
    [fuzzyFind] returns the best candidate together with the largest LCS
    length [matchLen] between the lower-cased query name and any
    lower-cased candidate string, and [Search] accepts that candidate if
    and only if [matchLen > 2] and [matchLen >= floor(len(nameLc) / 4)];
    otherwise it reports not found.  In particular, for a lower-cased query
    of length 8 and a single candidate string, LCS length 2 gives not
    found and LCS length 3 gives a match. *)
Theorem Search_fuzzy_acceptance f n :
  name f = Some n →
  (code f ≫= fun c => byCode f !! ToLower c) = None →
  byName f !! ToLower n = None →
  byAbbr f !! ToLower n = None →
  ∃ best matchLen,
    fuzzyFind ToLower (ToLower n) (list_ f) (getCandidates f)
      = Return (best, matchLen) ∧
    (∀ item c, item ∈ list_ f → c ∈ getCandidates f item →
               score ToLower (ToLower n) c ≤ matchLen) ∧
    (matchLen = 0 ∨
     ∃ item c, item ∈ list_ f ∧ c ∈ getCandidates f item ∧
               best = Some item ∧ score ToLower (ToLower n) c = matchLen) ∧
    Search ToLower f =
      Return (if bool_decide (2 < matchLen ∧ len (ToLower n) `div` 4 ≤ matchLen)
              then (best, true) else (None, false)) ∧
    (∀ item c, list_ f = [item] → getCandidates f item = [c] →
               len (ToLower n) = 8 →
       (score ToLower (ToLower n) c = 2 → Search ToLower f = Return (None, false)) ∧
       (score ToLower (ToLower n) c = 3 →
        Search ToLower f = Return (Some item, true))).
Proof.
  intros Hname Hcode HbyName HbyAbbr.
  destruct (fuzzyFind_spec (ToLower n) (list_ f) (getCandidates f))
    as (best & matchLen & Hrun & Hmax & Hbest).
  destruct (Search_name_fuzzy f n HbyName HbyAbbr)
    as (best' & matchLen' & Hrun' & Hsearch).
  rewrite Hrun in Hrun'. simplify_eq.
  assert (Search ToLower f =
    Return (if bool_decide (2 < matchLen' ∧ len (ToLower n) `div` 4 ≤ matchLen')
            then (best', true) else (None, false))) as HS.
  { unfold Search. by rewrite Hcode, Hname. }
  exists best', matchLen'. split_and!; [done|done| |done|].
  - destruct Hbest as [[-> _]|(_ & item & c & ? & ? & ? & ? & _)];
      [by left|right; by exists item, c].
  - intros item c Hlist Hcands Hlen.
    assert (matchLen' = score ToLower (ToLower n) c ∧
            (0 < matchLen' → best' = Some item)) as [-> Hitem].
    { rewrite Hlist in Hmax, Hbest.
      assert (score ToLower (ToLower n) c ≤ matchLen') as Hle.
      { apply (Hmax item); [by apply list_elem_of_singleton|].
        rewrite Hcands. by apply list_elem_of_singleton. }
      assert (0 ≤ score ToLower (ToLower n) c) by (unfold score; lia).
      destruct Hbest as [[-> _]|(? & item' & c' & Hi & Hc & -> & <- & _)];
        [split; lia|].
      apply list_elem_of_singleton in Hi as ->.
      rewrite Hcands in Hc. apply list_elem_of_singleton in Hc as ->. done. }
    rewrite HS, Hlen. change (8 `div` 4) with 2. split; intros Hsc.
    + rewrite bool_decide_eq_false_2 by lia. done.
    + rewrite bool_decide_eq_true_2 by lia. rewrite Hitem by lia. done.
Qed.

Lemma Search_name_returns f n :
  ∃ item found,
    Search_name ToLower f n = Return (item, found) ∧
    (if found : bool then is_Some item else item = None).
Proof.
  destruct (byName f !! ToLower n) as [item|] eqn:HbyName.
  { exists (Some item), true. unfold Search_name. by rewrite HbyName. }
  destruct (byAbbr f !! ToLower n) as [item|] eqn:HbyAbbr.
  { exists (Some item), true. unfold Search_name. by rewrite HbyName, HbyAbbr. }
  destruct (fuzzyFind_spec (ToLower n) (list_ f) (getCandidates f))
    as (best & matchLen & Hrun & _ & Hbest).
  destruct (Search_name_fuzzy f n HbyName HbyAbbr)
    as (best' & matchLen' & Hrun' & ->).
  rewrite Hrun in Hrun'. simplify_eq.
  case_bool_decide as Hacc; [|by exists None, false].
  exists best', true. split; [done|].
  destruct Hbest as [[-> _]|(_ & item & _ & _ & _ & -> & _)]; [lia|done].
Qed.

Lemma Search_returns f :
  ∃ item found,
    Search ToLower f = Return (item, found) ∧
    (if found : bool then is_Some item else item = None).
Proof.
  unfold Search.
  destruct (code f ≫= _) as [item|]; [by exists (Some item), true|].
  destruct (name f) as [n|]; [apply Search_name_returns|by exists None, false].
Qed.

Lemma Search_code_hit f c item :
  code f = Some c → byCode f !! ToLower c = Some item →
  Search ToLower f = Return (Some item, true).
Proof. intros Hc Hhit. unfold Search. rewrite Hc. simpl. by rewrite Hhit. Qed.

Lemma Search_name_hit f n item :
  (code f ≫= fun c => byCode f !! ToLower c) = None →
  name f = Some n → byName f !! ToLower n = Some item →
  Search ToLower f = Return (Some item, true).
Proof.
  intros Hc Hn Hhit. unfold Search, Search_name. by rewrite Hc, Hn, Hhit.
Qed.

Lemma Search_abbr_hit f n item :
  (code f ≫= fun c => byCode f !! ToLower c) = None →
  name f = Some n → byName f !! ToLower n = None →
  byAbbr f !! ToLower n = Some item →
  Search ToLower f = Return (Some item, true).
Proof.
  intros Hc Hn Hmiss Hhit. unfold Search, Search_name.
  by rewrite Hc, Hn, Hmiss, Hhit.
Qed.

Lemma Search_no_name f :
  (code f ≫= fun c => byCode f !! ToLower c) = None →
  name f = None → Search ToLower f = Return (None, false).
Proof. intros Hc Hn. unfold Search. by rewrite Hc, Hn. Qed.

Lemma SearchOrSynthesize_found f item :
  Search ToLower f = Return (Some item, true) →
  SearchOrSynthesize ToLower f = Return (Some item).
Proof. intros HS. unfold SearchOrSynthesize. by rewrite HS. Qed.

Lemma SearchOrSynthesize_missed f :
  Search ToLower f = Return (None, false) →
  SearchOrSynthesize ToLower f
  = out ← synthesize f (code f) (name f); Return (Some out).
Proof. intros HS. unfold SearchOrSynthesize. by rewrite HS. Qed.

Lemma with_query_code f co no : code (with_query f co no) = from_option Some (code f) co.
Proof. by destruct co, no. Qed.
Lemma with_query_name f co no : name (with_query f co no) = from_option Some (name f) no.
Proof. by destruct co, no. Qed.
End Finder_facts.

Lemma bytes_substring_0 k s : bytes (String.substring 0 k s) = take k (bytes s).
Proof.
  revert s. induction k as [|k IH]; intros [|c s]; simpl; try done.
  by rewrite <-IH.
Qed.

Lemma substr_prefix s k :
  0 ≤ k → ∃ short, substr s 0 (Z.min k (len s)) = Return short ∧
                   bytes short = take (Z.to_nat k) (bytes s).
Proof.
  intros Hk. pose proof (len_nonneg s). eexists. split.
  - unfold substr. rewrite decide_True by lia. done.
  - rewrite bytes_substring_0. rewrite Z.sub_0_r.
    destruct (decide (k ≤ len s)).
    + by rewrite Z.min_l by done.
    + rewrite Z.min_r by lia. rewrite <-length_bytes, Nat2Z.id.
      pose proof (length_bytes s). rewrite !take_ge by lia. done.
Qed.

(** ** The station and line catalogs *)

Lemma ascii_ToLower_lowers_ascii : lowers_ascii ascii_ToLower.
Proof. by intros s _. Qed.

Lemma is_ascii_empty : is_ascii "".
Proof. constructor. Qed.

(** The catalogs hold ASCII strings only. *)
Lemma Stations_ascii :
  Forall (fun s =>
            is_ascii (Station_Code s) ∧ is_ascii (Station_Name s) ∧
            is_ascii (Station_ShortName s) ∧
            Forall is_ascii (aliases_of stationAliases (Station_Code s)))
         Stations.
Proof. refine (bool_decide_unpack _ _). vm_compute. exact I. Qed.

Lemma Lines_ascii :
  Forall (fun l =>
            is_ascii (Line_Code l) ∧ is_ascii (Line_Name l) ∧
            is_ascii (Line_Abbreviation l) ∧
            Forall is_ascii (Line_OtherAbbrs l) ∧
            Forall is_ascii (aliases_of lineAliases (Line_Code l)))
         Lines.
Proof. refine (bool_decide_unpack _ _). vm_compute. exact I. Qed.

(** The lookup tables depend on the lower-casing only through the keys. *)
Lemma makeMap_ext {T : Type} (f g : string → string) (input : list T)
    (getKey : T → string) :
  Forall (fun v => f (getKey v) = g (getKey v)) input →
  makeMap f input getKey = makeMap g input getKey.
Proof.
  unfold makeMap. generalize (∅ : gmap string T).
  induction input as [|v input IH]; intros out Hall; [done|].
  apply Forall_cons in Hall as [Hv Hall]. simpl. rewrite Hv. by apply IH.
Qed.

Lemma makeMmap_ext {T : Type} (f g : string → string) (input : list T)
    (getKeys : T → list string) :
  Forall (fun v => Forall (fun k => f k = g k) (getKeys v)) input →
  makeMmap f input getKeys = makeMmap g input getKeys.
Proof.
  unfold makeMmap. generalize (∅ : gmap string T).
  induction input as [|v input IH]; intros out Hall; [done|].
  apply Forall_cons in Hall as [Hv Hall]. simpl.
  assert (∀ keys (out : gmap string T),
            Forall (fun k => f k = g k) keys →
            foldl (fun out k => <[f k := v]> out) out keys
            = foldl (fun out k => <[g k := v]> out) out keys) as Hinner.
  { induction keys as [|k keys IHk]; intros out' Hkeys; [done|].
    apply Forall_cons in Hkeys as [Hk Hkeys]. simpl. rewrite Hk.
    by apply IHk. }
  rewrite (Hinner _ _ Hv). by apply IH.
Qed.

(** For a lower-casing that is the ASCII one on ASCII strings, the tables of
    the catalogs are those built with the ASCII lower-casing. *)
Lemma station_tables_ascii ToLower :
  lowers_ascii ToLower →
  stationsByCode ToLower = stationsByCode ascii_ToLower ∧
  stationsByName ToLower = stationsByName ascii_ToLower ∧
  stationsByShortName ToLower = stationsByShortName ascii_ToLower.
Proof.
  intros Hlow. pose proof Stations_ascii as Hascii.
  unfold stationsByCode, stationsByName, stationsByShortName. split_and!.
  - apply makeMap_ext. eapply Forall_impl; [exact Hascii|].
    intros s (? & _). by apply Hlow.
  - apply makeMmap_ext. eapply Forall_impl; [exact Hascii|].
    intros s (_ & ? & _ & Haliases). apply Forall_app. split.
    + constructor; [by apply Hlow|constructor].
    + eapply Forall_impl; [exact Haliases|]. intros k ?. by apply Hlow.
  - apply makeMap_ext. eapply Forall_impl; [exact Hascii|].
    intros s (_ & _ & ? & _). by apply Hlow.
Qed.

Lemma line_tables_ascii ToLower :
  lowers_ascii ToLower →
  linesByCode ToLower = linesByCode ascii_ToLower ∧
  linesByName ToLower = linesByName ascii_ToLower ∧
  linesByAbbreviation ToLower = linesByAbbreviation ascii_ToLower.
Proof.
  intros Hlow. pose proof Lines_ascii as Hascii.
  unfold linesByCode, linesByName, linesByAbbreviation. split_and!.
  - apply makeMap_ext. eapply Forall_impl; [exact Hascii|].
    intros l (? & _). by apply Hlow.
  - apply makeMmap_ext. eapply Forall_impl; [exact Hascii|].
    intros l (_ & ? & _ & _ & Haliases). apply Forall_app. split.
    + constructor; [by apply Hlow|constructor].
    + eapply Forall_impl; [exact Haliases|]. intros k ?. by apply Hlow.
  - apply makeMmap_ext. eapply Forall_impl; [exact Hascii|].
    intros l (_ & _ & ? & Hothers & _). apply Forall_app. split.
    + constructor; [by apply Hlow|constructor].
    + eapply Forall_impl; [exact Hothers|]. intros k ?. by apply Hlow.
Qed.

Lemma station_aliases_registered :
  Forall (fun s =>
    Forall (fun a => stationsByName ascii_ToLower !! ascii_ToLower a = Some s)
           (aliases_of stationAliases (Station_Code s))) Stations.
Proof. refine (bool_decide_unpack _ _). vm_compute. exact I. Qed.

Lemma station_names_registered :
  Forall (fun s => stationsByName ascii_ToLower !! ascii_ToLower (Station_Name s)
                   = Some s) Stations.
Proof. refine (bool_decide_unpack _ _). vm_compute. exact I. Qed.

Lemma station_codes_registered :
  Forall (fun s => stationsByCode ascii_ToLower !! ascii_ToLower (Station_Code s)
                   = Some s) Stations.
Proof. refine (bool_decide_unpack _ _). vm_compute. exact I. Qed.

(** C7.  [Search] looks up in order and returns at the first hit: with a
    code, the code table under the lower-cased code; then, with a name, the
    name/alias table under the lower-cased name, then the abbreviation table;
    the fuzzy match is consulted only after both have missed, and without a
    name the search ends not found.  On the station catalog, for every
    lower-casing that is the ASCII one on ASCII strings, every registered
    alias of a station is therefore resolved to that station by the exact
    alias lookup, whatever its primary name is, under every spelling that
    lower-cases to the same string, provided the code, if one is given, is
    not in the code table; and every station code, under every spelling that
    lower-cases to the same string, is resolved to its station. *)
Theorem Search_lookup_order :
  (∀ (T : Type) ToLower (f : @finderImpl T) c item,
     code f = Some c → byCode f !! ToLower c = Some item →
     Search ToLower f = Return (Some item, true)) ∧
  (∀ (T : Type) ToLower (f : @finderImpl T) n item,
     (code f ≫= fun c => byCode f !! ToLower c) = None →
     name f = Some n → byName f !! ToLower n = Some item →
     Search ToLower f = Return (Some item, true)) ∧
  (∀ (T : Type) ToLower (f : @finderImpl T) n item,
     (code f ≫= fun c => byCode f !! ToLower c) = None →
     name f = Some n → byName f !! ToLower n = None →
     byAbbr f !! ToLower n = Some item →
     Search ToLower f = Return (Some item, true)) ∧
  (∀ (T : Type) ToLower (f : @finderImpl T) n,
     (code f ≫= fun c => byCode f !! ToLower c) = None →
     name f = Some n → byName f !! ToLower n = None →
     byAbbr f !! ToLower n = None →
     ∃ best matchLen,
       fuzzyFind ToLower (ToLower n) (list_ f) (getCandidates f)
         = Return (best, matchLen) ∧
       Search ToLower f =
         Return (if bool_decide (2 < matchLen ∧ len (ToLower n) `div` 4 ≤ matchLen)
                 then (best, true) else (None, false))) ∧
  (∀ (T : Type) ToLower (f : @finderImpl T),
     (code f ≫= fun c => byCode f !! ToLower c) = None →
     name f = None → Search ToLower f = Return (None, false)) ∧
  (∀ ToLower s a n co,
     lowers_ascii ToLower →
     s ∈ Stations → a ∈ aliases_of stationAliases (Station_Code s) →
     ToLower n = ToLower a →
     (co ≫= fun c => stationsByCode ToLower !! ToLower c) = None →
     Search ToLower (with_query (FindStation ToLower) co (Some n))
     = Return (Some s, true)) ∧
  (∀ ToLower s c no,
     lowers_ascii ToLower →
     s ∈ Stations → ToLower c = ToLower (Station_Code s) →
     Search ToLower (with_query (FindStation ToLower) (Some c) no)
     = Return (Some s, true)).
Proof.
  split_and!.
  - intros. by eapply Search_code_hit.
  - intros. by eapply Search_name_hit.
  - intros. by eapply Search_abbr_hit.
  - intros T ToLower f n Hc Hn HbyName HbyAbbr.
    destruct (Search_name_fuzzy ToLower f n HbyName HbyAbbr)
      as (best & matchLen & Hrun & HS).
    exists best, matchLen. split; [done|]. unfold Search. by rewrite Hc, Hn.
  - intros. by apply Search_no_name.
  - intros ToLower s a n co Hlow Hs Ha Hn Hco.
    destruct (station_tables_ascii ToLower Hlow) as (_ & HbyName & _).
    pose proof Stations_ascii as Hascii.
    rewrite Forall_forall in Hascii.
    destruct (Hascii s Hs) as (_ & _ & _ & Haliases).
    rewrite Forall_forall in Haliases.
    pose proof station_aliases_registered as Hreg.
    rewrite Forall_forall in Hreg. specialize (Hreg s Hs).
    rewrite Forall_forall in Hreg. specialize (Hreg a Ha).
    apply (Search_name_hit _ _ n).
    + rewrite with_query_code. by destruct co.
    + by rewrite with_query_name.
    + rewrite Hn, (Hlow a (Haliases a Ha)).
      replace (byName (with_query (FindStation ToLower) co (Some n)))
        with (stationsByName ToLower) by by destruct co.
      by rewrite HbyName.
  - intros ToLower s c no Hlow Hs Hc.
    destruct (station_tables_ascii ToLower Hlow) as (HbyCode & _ & _).
    pose proof Stations_ascii as Hascii.
    rewrite Forall_forall in Hascii.
    destruct (Hascii s Hs) as (Hcode & _).
    pose proof station_codes_registered as Hreg.
    rewrite Forall_forall in Hreg. specialize (Hreg s Hs).
    apply (Search_code_hit _ _ c).
    + by rewrite with_query_code.
    + rewrite Hc, (Hlow _ Hcode).
      replace (byCode (with_query (FindStation ToLower) (Some c) no))
        with (stationsByCode ToLower) by by destruct no.
      by rewrite HbyCode.
Qed.

(** C10.  On the station finder, for every lower-casing that is the ASCII
    one on ASCII strings, a query whose name is the empty string, with no
    code or with a code whose lower-cased form is not in the code table, is
    found, and the station found is "Secaucus Concourse" (SC): the two
    catalog stations with an empty short name are NF and SC in that order,
    no name or alias is empty, and the short-name index maps the empty key
    to the later one. *)
Theorem Search_station_empty_name ToLower (co : option string) :
  lowers_ascii ToLower →
  (co ≫= fun c => stationsByCode ToLower !! ToLower c) = None →
  Search ToLower (with_query (FindStation ToLower) co (Some ""))
    = Return (Some (mkStation "SC" "Secaucus Concourse" ""), true) ∧
  filter (fun s => Station_ShortName s = "") Stations
    = [mkStation "NF" "North Philadelphia" ""; mkStation "SC" "Secaucus Concourse" ""] ∧
  stationsByName ToLower !! ToLower "" = None ∧
  stationsByShortName ToLower !! ToLower ""
    = Some (mkStation "SC" "Secaucus Concourse" "").
Proof.
  intros Hlow Hco.
  destruct (station_tables_ascii ToLower Hlow) as (_ & HbyName & HbyShort).
  assert (ToLower "" = "") as Hempty by (by rewrite (Hlow "" is_ascii_empty)).
  assert (stationsByName ToLower !! ToLower "" = None) as Hname
    by (rewrite Hempty, HbyName; by vm_compute).
  assert (stationsByShortName ToLower !! ToLower ""
          = Some (mkStation "SC" "Secaucus Concourse" "")) as Habbr
    by (rewrite Hempty, HbyShort; by vm_compute).
  split_and!; [|by vm_compute|done|done].
  apply (Search_abbr_hit _ _ "").
  - rewrite with_query_code. by destruct co.
  - by rewrite with_query_name.
  - by destruct co.
  - by destruct co.
Qed.

Lemma synthesizeStation_returns co no :
  ∃ short,
    synthesizeStation co no
    = Return (mkStation (default "XX" co)
                (default ("Unknown " +:+ default "XX" co) no) short) ∧
    bytes short
    = take 14 (bytes (default ("Unknown " +:+ default "XX" co) no)).
Proof.
  unfold synthesizeStation.
  destruct co as [c|], no as [n|]; cbn [from_option id];
    match goal with
    | |- context [substr ?x 0 _] =>
      destruct (substr_prefix x 14) as (short & Hsub & Hbytes); [lia|]
    end;
    exists short; by rewrite Hsub.
Qed.

(** C8 (amended).  [SearchOrSynthesize] never fails: whatever the
    lower-casing is, on the station and on the line finder it returns an
    entity for every query, never panics and never returns [nil].  Whenever
    [Search] misses, the entity is synthesized: its code is the query code if
    present, else "XX"; its name is the query name if present, else
    "Unknown " followed by that code; a station's short name is the first 14
    bytes of that name, and a line's abbreviation is "XX" followed by that
    code.  So a code that is supplied but not in the catalog is kept as the
    code of the result. *)
Theorem SearchOrSynthesize_never_fails (ToLower : string → string)
    (co no : option string) :
  let code := default "XX" co in
  let name := default ("Unknown " +:+ code) no in
  (∃ out,
     SearchOrSynthesize ToLower (with_query (FindStation ToLower) co no)
       = Return (Some out) ∧
     (Search ToLower (with_query (FindStation ToLower) co no)
        = Return (None, false) →
      Station_Code out = code ∧ Station_Name out = name ∧
      bytes (Station_ShortName out) = take 14 (bytes name))) ∧
  (∃ out,
     SearchOrSynthesize ToLower (with_query (FindLine ToLower) co no)
       = Return (Some out) ∧
     (Search ToLower (with_query (FindLine ToLower) co no)
        = Return (None, false) →
      Line_Code out = code ∧ Line_Name out = name ∧
      Line_Abbreviation out = "XX" +:+ code)).
Proof.
  intros qcode qname. split.
  - destruct (Search_returns ToLower (with_query (FindStation ToLower) co no))
      as (item & [] & HS & Hitem).
    + destruct Hitem as [out ->]. exists out.
      split; [by apply SearchOrSynthesize_found|]. by rewrite HS.
    + subst item. rewrite (SearchOrSynthesize_missed _ _ HS).
      rewrite with_query_code, with_query_name.
      replace (synthesize (with_query (FindStation ToLower) co no))
        with synthesizeStation by by destruct co, no.
      replace (from_option Some (code (FindStation ToLower)) co) with co
        by by destruct co.
      replace (from_option Some (name (FindStation ToLower)) no) with no
        by by destruct no.
      destruct (synthesizeStation_returns co no) as (short & -> & Hshort).
      eexists. split; [done|]. done.
  - destruct (Search_returns ToLower (with_query (FindLine ToLower) co no))
      as (item & [] & HS & Hitem).
    + destruct Hitem as [out ->]. exists out.
      split; [by apply SearchOrSynthesize_found|]. by rewrite HS.
    + subst item. rewrite (SearchOrSynthesize_missed _ _ HS).
      rewrite with_query_code, with_query_name.
      replace (synthesize (with_query (FindLine ToLower) co no))
        with synthesizeLine by by destruct co, no.
      replace (from_option Some (code (FindLine ToLower)) co) with co
        by by destruct co.
      replace (from_option Some (name (FindLine ToLower)) no) with no
        by by destruct no.
      eexists. split; [done|]. by destruct co, no.
Qed.

(** C8, as stated, fails for a supplied code that the catalog does not know
    and no name: the result carries that code, not the sentinel "XX", and a
    line's abbreviation is "XX" followed by that code, not "XXXX".  The
    query is ASCII, so the lower-casing is the ASCII one. *)
Lemma SearchOrSynthesize_unknown_code_is_kept :
  stationsByCode ascii_ToLower !! ascii_ToLower "XY" = None ∧
  SearchOrSynthesize ascii_ToLower
    (with_query (FindStation ascii_ToLower) (Some "XY") None)
    = Return (Some (mkStation "XY" "Unknown XY" "Unknown XY")) ∧
  "XY" ≠ "XX" ∧
  linesByCode ascii_ToLower !! ascii_ToLower "XY" = None ∧
  SearchOrSynthesize ascii_ToLower
    (with_query (FindLine ascii_ToLower) (Some "XY") None)
    = Return (Some (mkLine "XY" "Unknown XY" "XXXY" (mkColor 0 0 0) [])) ∧
  "XXXY" ≠ "XX" +:+ "XX".
Proof. split_and!; by vm_compute. Qed.

(** ** The Request Executor *)

Section Api_facts.
Context {I O : Type}.
Variable decodeErrorMessage : string → option string.
Variable m : MethodDefinition I O.

Lemma append_assoc (s1 s2 s3 : string) : (s1 +:+ s2) +:+ s3 = s1 +:+ s2 +:+ s3.
Proof.
  induction s1 as [|c s1 IH]; [done|].
  change (String c ((s1 +:+ s2) +:+ s3) = String c (s1 +:+ s2 +:+ s3)).
  by rewrite IH.
Qed.

Lemma len_0_empty b : len b = 0 ↔ b = "".
Proof. unfold len. destruct b; simpl; split; (done || lia). Qed.

(** C9.  For a response whose status is in [200, 300): when the body read
    is empty the result is [MissingCredentialsError], whatever the method's
    decoder is (it is not consulted); when the body is not empty the result
    is what the method's decoder yields for the method's response type, and a
    decoding failure is returned wrapped in an error whose text names the
    endpoint. *)
Theorem ParseResponse_success_status (response : Response) :
  200 ≤ StatusCode response < 300 →
  (Body response = inr "" →
   ∀ (SetToken' : I → string → I) (objToMap' : I → error + gmap string string)
     (Unmarshal' : string → error + O),
     ParseResponse decodeErrorMessage
       {| Name := Name m; SetToken := SetToken'; objToMap := objToMap';
          Unmarshal := Unmarshal' |} response
     = inl MissingCredentialsError) ∧
  (∀ b, Body response = inr b → b ≠ "" →
     ParseResponse decodeErrorMessage m response =
       match Unmarshal m b with
       | inr output => inr output
       | inl err =>
         inl (WrapError ("could not unmarshal response for " +:+ Name m +:+ ": ")
                        err)
       end) ∧
  (∀ b err, Body response = inr b → b ≠ "" → Unmarshal m b = inl err →
     ∃ e, ParseResponse decodeErrorMessage m response = inl e ∧
          Error e = "could not unmarshal response for " +:+ Name m +:+ ": "
                      +:+ Error err).
Proof.
  intros Hstatus.
  assert (∀ m' : MethodDefinition I O, ParseResponse decodeErrorMessage m' response =
    match Body response with
    | inl err => inl err
    | inr b =>
      if decide (len b = 0) then inl MissingCredentialsError
      else match Unmarshal m' b with
           | inl err =>
             inl (WrapError ("could not unmarshal response for " +:+ Name m'
                               +:+ ": ") err)
           | inr output => inr output
           end
    end) as HP.
  { intros m'. unfold ParseResponse. rewrite decide_False by lia. done. }
  split_and!.
  - intros Hbody ???. rewrite HP, Hbody. done.
  - intros b Hbody Hb. rewrite HP, Hbody.
    rewrite decide_False by by rewrite len_0_empty.
    by destruct (Unmarshal m b).
  - intros b err Hbody Hb Herr. eexists. split.
    + rewrite HP, Hbody. rewrite decide_False by by rewrite len_0_empty.
      rewrite Herr. done.
    + simpl. by rewrite !append_assoc.
Qed.
End Api_facts.

(** ** The token store and the retry pipeline *)

Section Client_facts.
Context {World Listener : Type}.
Variable Do : World → HttpRequest → World * (error + Response).
Variable decodeErrorMessage : string → option string.
Variable Unmarshal_GetTokenResponse : string → error + GetTokenResponse.

Local Abbreviation client := (@raildataClient World Listener).
Local Abbreviation Request' := (Request Do decodeErrorMessage).
Local Abbreviation GetToken_method' := (GetToken_method Unmarshal_GetTokenResponse).
Local Abbreviation refreshToken' :=
  (refreshToken Do decodeErrorMessage Unmarshal_GetTokenResponse).
Local Abbreviation issueToken' :=
  (issueToken Do decodeErrorMessage Unmarshal_GetTokenResponse).
Local Abbreviation request' :=
  (request Do decodeErrorMessage Unmarshal_GetTokenResponse).
Implicit Types s : client.

(** One call of the Request Executor leaves the client's fields alone and
    sends at most one request, to the method's endpoint. *)
Lemma Request_frame {I O : Type} (m : MethodDefinition I O) s input s' r :
  Request' m s input = (s', r) →
  creds s' = creds s ∧ token s' = token s ∧
  tokenUpdateListeners s' = tokenUpdateListeners s ∧
  goroutines s' = goroutines s ∧
  (wire s' = wire s ∨
   ∃ req, wire s' = wire s ++ [req] ∧ endpoint req = Name m).
Proof.
  unfold Request, createRequest, client_Do. intros HR.
  destruct (objToMap m input) as [err|fields]; [by simplify_eq; auto 10|].
  destruct (Do _ _) as [w [err|resp]]; simplify_eq; simpl;
    split_and!; try done; right; by eexists.
Qed.

Lemma issueToken_sends s c old s' err :
  issueToken' s c old = (s', err) →
  creds s' = creds s ∧
  ∃ req, wire s' = wire s ++ [req] ∧ endpoint req = "getToken".
Proof.
  unfold issueToken, Request, createRequest, client_Do. simpl. intros HR.
  destruct (Do _ _) as [w [e|resp]]; simplify_eq; simpl; [by eauto|].
  destruct (ParseResponse _ _ _) as [e|out]; simplify_eq; simpl; [by eauto|].
  case_decide; simplify_eq; simpl; by eauto.
Qed.

Lemma refreshToken_wire s old s' err :
  refreshToken' s old = (s', err) →
  creds s' = creds s ∧
  (wire s' = wire s ∨
   ∃ req, wire s' = wire s ++ [req] ∧ endpoint req = "getToken").
Proof.
  unfold refreshToken. intros HR.
  destruct (creds s) as [c|] eqn:Hc; [|by simplify_eq; auto].
  case_decide; [by simplify_eq; auto|].
  apply issueToken_sends in HR as [? ?]. split; [congruence|by right].
Qed.

(** The failures of a refresh. *)
Lemma refreshToken_failure s old s' err :
  refreshToken' s old = (s', Some err) →
  (creds s = None ∧ err = MissingCredentialsError ∧ s' = s) ∨
  (∃ c, creds s = Some c ∧ token s = old ∧
     ∃ r, Request' GetToken_method' s
            {| Username := username c; Password := password c |} = (s', r) ∧
          match r with
          | inl e => err = e
          | inr output =>
            Authenticated output ≠ "True" ∧ err = BadCredentialsError
          end).
Proof.
  unfold refreshToken. intros HR.
  destruct (creds s) as [c|] eqn:Hc; [|by simplify_eq; left].
  case_decide as Htok; [done|]. right. exists c. split; [done|].
  split; [by destruct (decide (token s = old))|].
  unfold issueToken in HR.
  destruct (Request' _ _ _) as [s2 [e|out]]; [by simplify_eq; eexists|].
  case_decide; simplify_eq. by eexists.
Qed.

Lemma sends_trans s s1 s2 n k : sends s s1 n → sends s1 s2 k → sends s s2 (n + k).
Proof.
  intros (q1 & E1 & ?) (q2 & E2 & ?). exists (q1 ++ q2).
  split; [by rewrite E2, E1, app_assoc|rewrite length_app; lia].
Qed.

Lemma sends_le s s' n k : sends s s' n → (n ≤ k)%nat → sends s s' k.
Proof. intros (q & E & ?) ?. exists q. split; [done|lia]. Qed.

Lemma Request_sends {I O : Type} (m : MethodDefinition I O) s input s' r :
  Request' m s input = (s', r) → sends s s' 1.
Proof.
  intros (_ & _ & _ & _ & [E|(q & E & _)])%Request_frame.
  - exists []. split; [by rewrite app_nil_r|simpl; lia].
  - exists [q]. split; [done|simpl; lia].
Qed.

Lemma refreshToken_sends s old s' err :
  refreshToken' s old = (s', err) → sends s s' 1.
Proof.
  intros [_ [E|(q & E & _)]]%refreshToken_wire.
  - exists []. split; [by rewrite app_nil_r|simpl; lia].
  - exists [q]. split; [done|simpl; lia].
Qed.

Lemma request_first {I O : Type} (method : MethodDefinition I O)
    s input s1 r1 :
  Request' method s (SetToken method input (GetToken s)) = (s1, r1) →
  errors_Is_InvalidTokenError r1 = false →
  request' method s input = (s1, r1).
Proof. intros HR1 Hno. unfold request. rewrite HR1, Hno. done. Qed.

Lemma request_retry {I O : Type} (method : MethodDefinition I O)
    s input s1 r1 s2 e :
  Request' method s (SetToken method input (GetToken s)) = (s1, r1) →
  errors_Is_InvalidTokenError r1 = true →
  refreshToken' s1 (GetToken s) = (s2, e) →
  request' method s input =
    match e with
    | Some err => (s2, inl err)
    | None =>
      Request' method s2
        (SetToken method (SetToken method input (GetToken s)) (GetToken s2))
    end.
Proof.
  intros HR1 Hinv Href. unfold request. rewrite HR1, Hinv, Href. simpl.
  by destruct e.
Qed.

(** C2.  The pipeline of [request]: the token read first is set on the
    payload and the Request Executor is called; a result that is not
    InvalidToken is returned unchanged, state and all; otherwise
    [refreshToken] is called with the token read first, its failure is what
    is returned if it fails, and if it succeeds the token is read again, set
    on the payload, and the Request Executor is called once more, that second
    result being returned whatever it is.  Hence at most three requests are
    sent in all, and at most one when the first result is not
    InvalidToken. *)
Theorem request_retry_pipeline {I O : Type} (method : MethodDefinition I O)
    s input s1 r1 :
  Request Do decodeErrorMessage method s (SetToken method input (GetToken s))
    = (s1, r1) →
  (errors_Is_InvalidTokenError r1 = false →
   request Do decodeErrorMessage Unmarshal_GetTokenResponse method s input
     = (s1, r1)) ∧
  (errors_Is_InvalidTokenError r1 = true →
   ∀ s2 e,
     refreshToken Do decodeErrorMessage Unmarshal_GetTokenResponse s1
       (GetToken s) = (s2, e) →
     (∀ err, e = Some err →
        request Do decodeErrorMessage Unmarshal_GetTokenResponse method s input
          = (s2, inl err)) ∧
     (e = None →
      request Do decodeErrorMessage Unmarshal_GetTokenResponse method s input =
        Request Do decodeErrorMessage method s2
          (SetToken method (SetToken method input (GetToken s)) (GetToken s2)))) ∧
  (∀ s' r,
     request Do decodeErrorMessage Unmarshal_GetTokenResponse method s input
       = (s', r) →
     sends s s' 3 ∧ (errors_Is_InvalidTokenError r1 = false → sends s s' 1)).
Proof.
  intros HR1.
  pose proof (request_first method s input s1 r1 HR1) as Hfirst.
  assert (errors_Is_InvalidTokenError r1 = true →
   ∀ s2 e, refreshToken' s1 (GetToken s) = (s2, e) →
     (∀ err, e = Some err → request' method s input = (s2, inl err)) ∧
     (e = None →
      request' method s input =
        Request' method s2
          (SetToken method (SetToken method input (GetToken s)) (GetToken s2))))
    as Hretry.
  { intros Hinv s2 e Href.
    rewrite (request_retry method s input s1 r1 s2 e HR1 Hinv Href).
    split; [by intros err ->|by intros ->]. }
  split_and!; [done|done|].
  intros s' r Hreq.
  pose proof (Request_sends _ _ _ _ _ HR1) as Hw1.
  destruct (errors_Is_InvalidTokenError r1) eqn:Hinv.
  - split; [|done].
    destruct (refreshToken' s1 (GetToken s)) as [s2 e] eqn:Href.
    destruct (Hretry eq_refl s2 e eq_refl) as [Herr Hok].
    pose proof (refreshToken_sends _ _ _ _ Href) as Hw2.
    destruct e as [err|].
    + rewrite (Herr err eq_refl) in Hreq. simplify_eq.
      eapply sends_le; [by eapply sends_trans|lia].
    + rewrite (Hok eq_refl) in Hreq.
      pose proof (Request_sends _ _ _ _ _ Hreq) as Hw3.
      eapply sends_le; [eapply sends_trans; [by eapply sends_trans|done]|lia].
  - rewrite (Hfirst eq_refl) in Hreq. simplify_eq.
    split; [eapply sends_le; [done|lia]|done].
Qed.

(** C1 (amended).  An InvalidToken result of the first attempt is never what
    [request] returns for that attempt: the caller gets
    [MissingCredentialsError] (no credentials), [BadCredentialsError] (the
    token-issuance endpoint did not authenticate), the error of the
    token-issuance call itself, or, when the refresh succeeds, the result of
    the single retry unchanged, whatever that result is. *)
Theorem request_InvalidToken_resolution {I O : Type}
    (method : MethodDefinition I O) s input s1 r1 s' r :
  Request Do decodeErrorMessage method s (SetToken method input (GetToken s))
    = (s1, r1) →
  errors_Is_InvalidTokenError r1 = true →
  request Do decodeErrorMessage Unmarshal_GetTokenResponse method s input
    = (s', r) →
  (r = inl MissingCredentialsError ∧ creds s = None ∧ s' = s1) ∨
  (r = inl BadCredentialsError ∧
   ∃ c output,
     creds s = Some c ∧
     Request Do decodeErrorMessage
       (GetToken_method Unmarshal_GetTokenResponse) s1
       {| Username := username c; Password := password c |} = (s', inr output) ∧
     Authenticated output ≠ "True") ∨
  (∃ c err,
     r = inl err ∧ creds s = Some c ∧
     Request Do decodeErrorMessage
       (GetToken_method Unmarshal_GetTokenResponse) s1
       {| Username := username c; Password := password c |} = (s', inl err)) ∨
  (∃ s2,
     refreshToken Do decodeErrorMessage Unmarshal_GetTokenResponse s1
       (GetToken s) = (s2, None) ∧
     Request Do decodeErrorMessage method s2
       (SetToken method (SetToken method input (GetToken s)) (GetToken s2))
     = (s', r)).
Proof.
  intros HR1 Hinv Hreq.
  pose proof (Request_frame _ _ _ _ _ HR1) as (Hcreds & _).
  destruct (refreshToken' s1 (GetToken s)) as [s2 [err|]] eqn:Href;
    rewrite (request_retry method s input s1 r1 _ _ HR1 Hinv Href) in Hreq.
  - simplify_eq.
    apply refreshToken_failure in Href
      as [(? & -> & ->)|(c & Hc & _ & [e|output] & HR & Hout)].
    + left. split_and!; [done|congruence|done].
    + subst. right; right; left. exists c, e. split_and!; [done|congruence|done].
    + destruct Hout as [Hauth ->]. right; left. split; [done|].
      exists c, output. split_and!; [congruence|done|done].
  - right; right; right. by exists s2.
Qed.

(** Credentials never change, and without credentials the token never
    changes either. *)
Lemma evolves_frame s0 s :
  evolves Do decodeErrorMessage Unmarshal_GetTokenResponse s0 s →
  creds s = creds s0 ∧ (creds s0 = None → token s = token s0).
Proof.
  induction 1 as [s|I O m s0 s input s' r _ [IHc IHt] HR
                 |s0 s old s' err _ [IHc IHt] HR].
  - done.
  - apply Request_frame in HR as (Hc & Ht & _).
    split; [congruence|]. intros Hnone. rewrite Ht. by apply IHt.
  - pose proof (refreshToken_wire _ _ _ _ HR) as [Hc _].
    split; [congruence|]. intros Hnone.
    unfold refreshToken in HR. rewrite IHc, Hnone in HR. simplify_eq.
    by apply IHt.
Qed.

(** [request] is made of calls of the Request Executor and of
    [refreshToken]. *)
Lemma request_evolves {I O : Type} (method : MethodDefinition I O)
    s input s' r :
  request' method s input = (s', r) →
  evolves Do decodeErrorMessage Unmarshal_GetTokenResponse s s'.
Proof.
  intros Hreq.
  destruct (Request' method s (SetToken method input (GetToken s)))
    as [s1 r1] eqn:HR1.
  assert (evolves Do decodeErrorMessage Unmarshal_GetTokenResponse s s1) as H1
    by (eapply evolves_Request; [apply evolves_refl|exact HR1]).
  destruct (errors_Is_InvalidTokenError r1) eqn:Hinv.
  2:{ rewrite (request_first method s input s1 r1 HR1 Hinv) in Hreq.
      by simplify_eq. }
  destruct (refreshToken' s1 (GetToken s)) as [s2 e] eqn:Href.
  rewrite (request_retry method s input s1 r1 s2 e HR1 Hinv Href) in Hreq.
  assert (evolves Do decodeErrorMessage Unmarshal_GetTokenResponse s s2) as H2
    by (eapply evolves_refreshToken; [exact H1|exact Href]).
  destruct e as [err|]; [by simplify_eq|].
  eapply evolves_Request; [exact H2|exact Hreq].
Qed.

Lemma refreshToken_stale s observed :
  is_Some (creds s) → token s ≠ observed →
  refreshToken' s observed = (s, None).
Proof.
  intros [c Hc] Hne. unfold refreshToken. by rewrite Hc, decide_True.
Qed.

(** C4.  When the stored token no longer equals the observed one,
    [refreshToken] returns success, sends nothing and leaves the whole
    client state as it is.  This holds on a client with credentials, and so
    for every call the code can make: the observed token is one that was
    read from this client at an earlier moment, the token changes only by a
    refresh, and a refresh needs credentials, which never change; so a
    stored token that differs from the observed one comes with credentials.
    The stored token is replaced only when it equals the observed token at
    the locked check, and then only by a successful, credentialed refresh.
    [request] is made of the calls that [evolves] follows. *)
Theorem refreshToken_compare_and_set s observed :
  (is_Some (creds s) → GetToken s ≠ observed →
   refreshToken Do decodeErrorMessage Unmarshal_GetTokenResponse s observed
     = (s, None)) ∧
  (∀ s0,
     evolves Do decodeErrorMessage Unmarshal_GetTokenResponse s0 s →
     observed = GetToken s0 → GetToken s ≠ observed →
     refreshToken Do decodeErrorMessage Unmarshal_GetTokenResponse s observed
       = (s, None)) ∧
  (∀ s' err,
     refreshToken Do decodeErrorMessage Unmarshal_GetTokenResponse s observed
       = (s', err) →
     GetToken s' ≠ GetToken s →
     GetToken s = observed ∧ err = None ∧ is_Some (creds s)) ∧
  (∀ (I O : Type) (method : MethodDefinition I O) input s' r,
     request Do decodeErrorMessage Unmarshal_GetTokenResponse method s input
       = (s', r) →
     evolves Do decodeErrorMessage Unmarshal_GetTokenResponse s s').
Proof.
  split_and!.
  - apply refreshToken_stale.
  - intros s0 Hev -> Hne. apply refreshToken_stale; [|done].
    destruct (evolves_frame s0 s Hev) as [Hc Ht].
    destruct (creds s) as [c|] eqn:Hcs; [by eexists|].
    exfalso. apply Hne. unfold GetToken. by apply Ht.
  - intros s' err Href Hchanged. unfold refreshToken in Href.
    destruct (creds s) as [c|]; [|by simplify_eq].
    case_decide as Htok; [by simplify_eq|].
    split; [by destruct (decide (token s = observed))|].
    unfold issueToken in Href.
    destruct (Request' _ _ _) as [s2 [e|output]] eqn:HR;
      pose proof (Request_frame _ _ _ _ _ HR) as (_ & Ht & _).
    + by simplify_eq.
    + case_decide; by simplify_eq.
  - intros I O method input s' r. apply request_evolves.
Qed.
End Client_facts.

(** ** Concurrent refreshes *)

Section Storm_facts.
Context {World Listener : Type}.
Variable Do : World → HttpRequest → World * (error + Response).
Variable decodeErrorMessage : string → option string.
Variable Unmarshal_GetTokenResponse : string → error + GetTokenResponse.

Local Abbreviation client := (@raildataClient World Listener).
Local Abbreviation Request' := (Request Do decodeErrorMessage).
Local Abbreviation GetToken_method' := (GetToken_method Unmarshal_GetTokenResponse).
Local Abbreviation issueToken' :=
  (issueToken Do decodeErrorMessage Unmarshal_GetTokenResponse).
Local Abbreviation issues_fresh_token' :=
  (issues_fresh_token Do decodeErrorMessage Unmarshal_GetTokenResponse).
Local Abbreviation storm_invariant' :=
  (storm_invariant Do decodeErrorMessage Unmarshal_GetTokenResponse).
Local Abbreviation step' :=
  (step Do decodeErrorMessage Unmarshal_GetTokenResponse).
Local Abbreviation run' :=
  (run Do decodeErrorMessage Unmarshal_GetTokenResponse).
Implicit Types (s : client) (σ : @shared World Listener).

Lemma lookup_move σ i s mutex p j c' :
  callers (move σ i s mutex p) !! j = Some c' →
  (j = i ∧ ∃ c, callers σ !! i = Some c ∧
                c' = {| oldToken := oldToken c; at_ := p |}) ∨
  (j ≠ i ∧ callers σ !! j = Some c').
Proof.
  unfold move. simpl. destruct (decide (j = i)) as [->|Hne].
  - rewrite list_lookup_alter, decide_True by done.
    destruct (callers σ !! i) as [c|]; intros Hc; simplify_eq/=.
    left. split; [done|]. by exists c.
  - rewrite list_lookup_alter_ne by done. by right.
Qed.

Lemma lookup_move_is_Some σ i s mutex p j :
  is_Some (callers (move σ i s mutex p) !! j) ↔ is_Some (callers σ !! j).
Proof.
  unfold move. simpl. rewrite !lookup_lt_is_Some. by rewrite length_alter.
Qed.

(** A step moves one caller forward. *)
Lemma remaining_move σ i c s mutex p :
  callers σ !! i = Some c → (steps_left p < steps_left (at_ c))%nat →
  (remaining (move σ i s mutex p) < remaining σ)%nat.
Proof.
  unfold remaining, move. simpl. generalize (callers σ). clear σ.
  intros l. revert i. induction l as [|x l IH]; intros [|i] Hi Hlt;
    simplify_eq/=.
  - lia.
  - specialize (IH i Hi Hlt). lia.
Qed.

Lemma step_remaining i σ σ' :
  step' i σ = Some σ' →
  (remaining σ' < remaining σ)%nat ∧
  length (callers σ') = length (callers σ).
Proof.
  unfold step. intros Hstep.
  destruct (callers σ !! i) as [c|] eqn:Hi; simplify_eq/=.
  assert (∀ s mutex p, (steps_left p < steps_left (at_ c))%nat →
            (remaining (move σ i s mutex p) < remaining σ)%nat ∧
            length (callers (move σ i s mutex p)) = length (callers σ))
    as Hmove.
  { intros s mutex p Hlt. split; [by eapply remaining_move|].
    unfold move. simpl. by rewrite length_alter. }
  destruct (at_ c) eqn:Hpc.
  - destruct (creds (client_ σ)); simplify_eq; apply Hmove; simpl; lia.
  - destruct (tokenMutex σ); simplify_eq. apply Hmove; simpl; lia.
  - case_decide; simplify_eq; apply Hmove; simpl; lia.
  - destruct (creds (client_ σ)); simplify_eq.
    destruct (issueToken' _ _ _). simplify_eq. apply Hmove; simpl; lia.
  - done.
Qed.

Lemma issueToken_fresh s c t :
  issues_fresh_token' s c t →
  ∃ s', issueToken' s c t = (s', None) ∧
        creds s' = creds s ∧ token s' ≠ t ∧
        length (getToken_calls s') = S (length (getToken_calls s)).
Proof.
  intros (s1 & output & HR & Hauth & Htok).
  eexists. unfold issueToken. rewrite HR, decide_False by (by intros []).
  split; [done|]. simpl.
  pose proof HR as Hw. apply Request_frame in HR as (Hc & _ & _ & _ & _).
  split_and!; [done|done|].
  unfold Request, createRequest, client_Do in Hw. simpl in Hw.
  destruct (Do _ _) as [w [e|resp]]; simplify_eq/=.
  unfold getToken_calls. simpl.
  rewrite filter_app, length_app, filter_cons_True by done. simpl. lia.
Qed.

Lemma storm_invariant_step s c t i σ σ' :
  token s = t → issues_fresh_token' s c t →
  storm_invariant' s c t σ → step' i σ = Some σ' → storm_invariant' s c t σ'.
Proof.
  intros Hts Hfresh (Hcreds & Hcallers & Hholder & Hclient) Hstep.
  unfold step in Hstep.
  destruct (callers σ !! i) as [ci|] eqn:Hi; simplify_eq/=.
  destruct (Hcallers i ci Hi) as (Hold & Hci & Hat).
  (* what a move of caller [i] must satisfy *)
  assert (∀ p' s' mutex',
            creds s' = Some c →
            (holds_mutex p' = true ↔ mutex' = Some i) →
            (mutex' = tokenMutex σ ∨
             (tokenMutex σ = None ∧ mutex' = Some i) ∨
             (tokenMutex σ = Some i ∧ mutex' = None)) →
            match p' with
            | AtCall => s' = s
            | Returned err => err = None ∧ token s' ≠ token s
            | _ => True
            end →
            (s' = client_ σ ∨
             (tokenMutex σ = Some i ∧ token s' ≠ token s)) →
            (s' = s ∨
             (issueToken' s c (token s) = (s', None) ∧ token s' ≠ token s ∧
              length (getToken_calls s') = S (length (getToken_calls s)))) →
            storm_invariant' s c (token s) (move σ i s' mutex' p'))
    as Hmove.
  { intros p' s' mutex' Hcr Hp' Hmutex Hpc Hs' Hcl.
    split_and!; [done| |by intros j Hj; apply lookup_move_is_Some; simpl in Hj;
                         destruct Hmutex as [->|[[_ ->]|[_ ->]]];
                         [apply Hholder|simplify_eq; by eexists|done]|done].
    intros j cj [[-> (c0 & ? & ->)]|[Hj Hcj]]%lookup_move; simplify_eq/=;
      [done|].
    destruct (Hcallers j cj Hcj) as (Holdj & Hcsj & Hatj).
    split_and!; [done| |].
    - rewrite Hcsj.
      destruct Hmutex as [->|[[Hm ->]|[Hm ->]]]; [done|..];
        rewrite Hm; split; intros; simplify_eq.
    - destruct (at_ cj) eqn:Hpj; try done.
      + (* another caller about to call: it holds the mutex *)
        assert (tokenMutex σ = Some j) as Hmj by (by apply Hcsj).
        destruct Hs' as [->|[Hmi _]]; [done|].
        (* caller [i] holds the mutex *)
        exfalso. apply Hj. congruence.
      + destruct Hatj as [-> Htok]. split; [done|].
        destruct Hs' as [->|[_ ?]]; [done|done]. }
  destruct (at_ ci) eqn:Hpc; simpl in Hci.
  - (* AtEntry *)
    rewrite Hcreds in Hstep. simplify_eq.
    apply Hmove; [done| |by left|done|by left|done].
    split; [done|]. intros Hm. by apply Hci in Hm.
  - (* AtLock *)
    destruct (tokenMutex σ) as [holder|] eqn:Hmutex; simplify_eq.
    apply Hmove; [done|done|right; by left|done|by left|done].
  - (* AtCheck *)
    assert (tokenMutex σ = Some i) as Hm by (by apply Hci).
    case_decide as Htok; simplify_eq.
    + apply Hmove; [done|done|right; by right| |by left|done].
      split; [done|]. by rewrite Hold in Htok.
    + assert (client_ σ = s) as Hcl.
      { destruct Hclient as [?|(_ & Hne & _)]; [done|].
        exfalso. apply Hne.
        destruct (decide (token (client_ σ) = oldToken ci));
          [congruence|done]. }
      apply Hmove; [done|by rewrite Hm|by left|done|by left|by left].
  - (* AtCall *)
    assert (tokenMutex σ = Some i) as Hm by (by apply Hci).
    destruct (issueToken_fresh s c (token s) Hfresh)
      as (s' & Hissue & Hc' & Hnew & Hlen).
    rewrite Hcreds in Hstep. rewrite Hold in Hstep.
    replace (issueToken' (client_ σ) c (token s)) with (s', @None error)
      in Hstep by (by rewrite Hat).
    simplify_eq.
    apply Hmove; [|done|right; by right|done|by right|by right].
    congruence.
  - done.
Qed.

Lemma storm_invariant_run s c t schedule σ :
  token s = t → issues_fresh_token' s c t →
  storm_invariant' s c t σ → storm_invariant' s c t (run' schedule σ).
Proof.
  intros Ht Hfresh. revert σ.
  induction schedule as [|i schedule IH]; intros σ Hσ; [done|].
  simpl. apply IH. destruct (step' i σ) as [σ'|] eqn:Hstep; [|done].
  by eapply storm_invariant_step.
Qed.

Lemma storm_invariant_enter s c n t :
  creds s = Some c → storm_invariant' s c t (enter s n t).
Proof.
  intros Hc. split_and!; [done| |done|by left].
  intros i c' [-> _]%lookup_replicate. done.
Qed.

Lemma run_callers_length schedule σ :
  length (callers (run' schedule σ)) = length (callers σ).
Proof.
  revert σ. induction schedule as [|i schedule IH]; intros σ; [done|].
  simpl. rewrite IH. destruct (step' i σ) as [σ'|] eqn:Hstep; [|done].
  by apply step_remaining in Hstep as [_ ?].
Qed.

Lemma all_returned_or_not (l : list caller) :
  Forall (fun caller => at_ caller = Returned None) l ∨
  ∃ i ci, l !! i = Some ci ∧ at_ ci ≠ Returned None.
Proof.
  induction l as [|x l [IH|(i & ci & Hi & Hci)]].
  - left. constructor.
  - destruct (at_ x) as [| | | |[e|]] eqn:Hx;
      try (right; exists 0%nat, x; split; [done|by rewrite Hx]).
    left. by constructor.
  - right. by exists (S i), ci.
Qed.

(** Unless every caller has returned, some caller can take a step. *)
Lemma storm_invariant_progress s c t σ :
  storm_invariant' s c t σ →
  Forall (fun caller => at_ caller = Returned None) (callers σ) ∨
  ∃ i σ', step' i σ = Some σ'.
Proof.
  intros (Hcreds & Hcallers & Hholder & _).
  destruct (tokenMutex σ) as [h|] eqn:Hm.
  - right. destruct (Hholder h eq_refl) as [ch Hch].
    destruct (Hcallers h ch Hch) as (_ & Hcs & _).
    assert (holds_mutex (at_ ch) = true) as Hh by (by apply Hcs).
    exists h. unfold step. rewrite Hch. simpl.
    destruct (at_ ch) eqn:Hpc; try done.
    + case_decide; by eexists.
    + rewrite Hcreds. destruct (issueToken' _ _ _). by eexists.
  - destruct (all_returned_or_not (callers σ)) as [|(i & ci & Hi & Hci)];
      [by left|right].
    destruct (Hcallers i ci Hi) as (_ & Hcs & Hat).
    exists i. unfold step. rewrite Hi. simpl.
    destruct (at_ ci) eqn:Hpc.
    + rewrite Hcreds. by eexists.
    + rewrite Hm. by eexists.
    + assert (None = Some i) by (by apply Hcs). done.
    + assert (None = Some i) by (by apply Hcs). done.
    + destruct Hat as [-> _]. done.
Qed.

(** Every run can be continued until every caller has returned. *)
Lemma storm_completes s c t k σ :
  token s = t → issues_fresh_token' s c t →
  storm_invariant' s c t σ → (remaining σ ≤ k)%nat →
  ∃ rest,
    storm_invariant' s c t (run' rest σ) ∧
    length (callers (run' rest σ)) = length (callers σ) ∧
    Forall (fun caller => at_ caller = Returned None)
           (callers (run' rest σ)).
Proof.
  intros Ht Hfresh. revert σ.
  induction k as [|k IH]; intros σ Hinv Hk.
  - destruct (storm_invariant_progress s c t σ Hinv)
      as [Hdone|(i & σ' & Hstep)]; [by exists []|].
    apply step_remaining in Hstep as [? _]. lia.
  - destruct (storm_invariant_progress s c t σ Hinv)
      as [Hdone|(i & σ' & Hstep)]; [by exists []|].
    pose proof (step_remaining _ _ _ Hstep) as [Hlt Hlen].
    destruct (IH σ') as (rest & Hinv' & Hlen' & Hall);
      [by eapply storm_invariant_step|lia|].
    exists (i :: rest). simpl. rewrite Hstep. simpl.
    split_and!; [done|congruence|done].
Qed.

End Storm_facts.

(** ** The test servers *)

(** A caller running alone goes through [refreshToken]. *)
Lemma run_alone {World Listener : Type} Do decodeErrorMessage
    Unmarshal_GetTokenResponse (s : @raildataClient World Listener) t :
  run Do decodeErrorMessage Unmarshal_GetTokenResponse [0; 0; 0; 0]%nat
      (enter s 1 t)
  = let '(s', err) :=
      refreshToken Do decodeErrorMessage Unmarshal_GetTokenResponse s t in
    {| client_ := s'; tokenMutex := None;
       callers := [{| oldToken := t; at_ := Returned err |}] |}.
Proof.
  unfold run, enter, refreshToken, step, move. simpl.
  destruct (creds s) as [c|] eqn:Hc; simpl; [|done].
  case_decide; simpl; [done|]. rewrite Hc.
  by destruct (issueToken _ _ _ _ _ _).
Qed.

(** C1, as stated, fails: against a server that issues a new token and
    rejects every token, the retry is rejected like the first attempt and
    [request] returns [InvalidTokenError] to its caller. *)
Lemma request_returns_InvalidToken_of_retry :
  let s := test_client (Some test_credentials) "oldtoken" in
  let result :=
    request rejecting_server test_decodeErrorMessage
      test_Unmarshal_GetTokenResponse
      (IsValidToken test_Unmarshal_ValidTokenResponse) s {| Token := "" |} in
  result.2 = inl InvalidTokenError ∧
  token result.1 = "newtoken" ∧
  endpoint <$> wire result.1 = ["isValidToken"; "getToken"; "isValidToken"].
Proof. by vm_compute. Qed.


(** ** Instances on the test data *)

(** An instance of C6. *)
Lemma fuzzyMatch_is_LCS_length_example :
  fuzzyMatch "abcbdab" "bdcaba" = Return 4.
Proof. by vm_compute. Qed.

(** C5 at a query of length 8 and a single candidate: LCS length 3 is
    accepted, LCS length 2 is not. *)
Lemma Search_fuzzy_acceptance_witness :
  let accepted := single_candidate_finder "axbxcx" "ABCDEFGH" in
  let rejected := single_candidate_finder "axbx" "ABCDEFGH" in
  len (ascii_ToLower "ABCDEFGH") = 8 ∧
  score ascii_ToLower (ascii_ToLower "ABCDEFGH") "axbxcx" = 3 ∧
  score ascii_ToLower (ascii_ToLower "ABCDEFGH") "axbx" = 2 ∧
  Search ascii_ToLower accepted = Return (Some "axbxcx", true) ∧
  Search ascii_ToLower rejected = Return (None, false).
Proof.
  intros accepted rejected.
  split_and!; [by vm_compute..| |].
  - destruct (Search_fuzzy_acceptance ascii_ToLower accepted "ABCDEFGH")
      as (best & matchLen & _ & _ & _ & _ & Hsole);
      [reflexivity|reflexivity|reflexivity|reflexivity|].
    apply (Hsole "axbxcx" "axbxcx"); [reflexivity|reflexivity|by vm_compute|
                                      by vm_compute].
  - destruct (Search_fuzzy_acceptance ascii_ToLower rejected "ABCDEFGH")
      as (best & matchLen & _ & _ & _ & _ & Hsole);
      [reflexivity|reflexivity|reflexivity|reflexivity|].
    apply (Hsole "axbx" "axbx"); [reflexivity|reflexivity|by vm_compute|
                                  by vm_compute].
Defined.

(** C7 at the alias "Ho-Ho-Kus" of station UF. *)
Lemma Search_lookup_order_witness :
  let Hohokus := mkStation "UF" "Hohokus" "Hohokus" in
  Hohokus ∈ Stations ∧
  "Ho-Ho-Kus" ∈ aliases_of stationAliases (Station_Code Hohokus) ∧
  ascii_ToLower "HO-HO-KUS" = ascii_ToLower "Ho-Ho-Kus" ∧
  Search ascii_ToLower (with_query (FindStation ascii_ToLower) None (Some "HO-HO-KUS"))
    = Return (Some Hohokus, true).
Proof.
  intros Hohokus.
  assert (Hohokus ∈ Stations) as Hs
    by (refine (bool_decide_unpack _ _); vm_compute; exact I).
  assert ("Ho-Ho-Kus" ∈ aliases_of stationAliases (Station_Code Hohokus)) as Ha
    by (refine (bool_decide_unpack _ _); vm_compute; exact I).
  split_and!; [done|done|reflexivity|].
  destruct Search_lookup_order as (_ & _ & _ & _ & _ & Halias & _).
  apply (Halias ascii_ToLower Hohokus "Ho-Ho-Kus" "HO-HO-KUS" None);
    [exact ascii_ToLower_lowers_ascii|done|done|reflexivity|reflexivity].
Defined.

(** C10 with a code that the catalog does not have. *)
Lemma Search_station_empty_name_witness :
  (Some "ZZ" ≫= fun c => stationsByCode ascii_ToLower !! ascii_ToLower c) = None ∧
  Search ascii_ToLower (with_query (FindStation ascii_ToLower) (Some "ZZ") (Some ""))
    = Return (Some (mkStation "SC" "Secaucus Concourse" ""), true).
Proof.
  assert ((Some "ZZ" ≫= fun c => stationsByCode ascii_ToLower !! ascii_ToLower c) = None)
    as Hmiss by (vm_compute; reflexivity).
  split; [exact Hmiss|].
  exact (proj1 (Search_station_empty_name ascii_ToLower (Some "ZZ")
                  ascii_ToLower_lowers_ascii Hmiss)).
Defined.

(** C8 (amended) at the code "XY" and no name. *)
Lemma SearchOrSynthesize_never_fails_witness :
  Search ascii_ToLower (with_query (FindStation ascii_ToLower) (Some "XY") None)
    = Return (None, false) ∧
  ∃ out,
    SearchOrSynthesize ascii_ToLower
      (with_query (FindStation ascii_ToLower) (Some "XY") None)
      = Return (Some out) ∧
    Station_Code out = "XY" ∧ Station_Name out = "Unknown XY" ∧
    bytes (Station_ShortName out) = take 14 (bytes "Unknown XY").
Proof.
  assert (Search ascii_ToLower (with_query (FindStation ascii_ToLower) (Some "XY") None)
          = Return (None, false)) as Hmiss by (vm_compute; reflexivity).
  split; [exact Hmiss|].
  destruct (SearchOrSynthesize_never_fails ascii_ToLower (Some "XY") None)
    as [(out & Hout & Hsynth) _].
  exists out. split; [exact Hout|]. exact (Hsynth Hmiss).
Defined.

(** C9 at the empty response of [sendEmpty]. *)
Lemma ParseResponse_success_status_witness :
  let m := IsValidToken test_Unmarshal_ValidTokenResponse in
  let response := {| StatusCode := 204; Status := "204 No Content";
                     Body := inr "" |} in
  200 ≤ StatusCode response < 300 ∧
  ParseResponse test_decodeErrorMessage m response = inl MissingCredentialsError.
Proof.
  intros m response.
  assert (200 ≤ StatusCode response < 300) as Hstatus by (simpl; lia).
  split; [exact Hstatus|].
  destruct (ParseResponse_success_status test_decodeErrorMessage m response
              Hstatus) as (Hempty & _ & _).
  exact (Hempty eq_refl (SetToken m) (objToMap m) (Unmarshal m)).
Defined.

(** C2 on the server of TestRenewTokenWhenRequired. *)
Lemma request_retry_pipeline_witness :
  let s := test_client (Some test_credentials) "oldtoken" in
  let m := IsValidToken test_Unmarshal_ValidTokenResponse in
  let input := {| Token := "" |} in
  let first :=
    Request renewing_server test_decodeErrorMessage m s
      (SetToken m input (GetToken s)) in
  let refreshed :=
    refreshToken renewing_server test_decodeErrorMessage
      test_Unmarshal_GetTokenResponse first.1 (GetToken s) in
  errors_Is_InvalidTokenError first.2 = true ∧
  refreshed.2 = None ∧
  request renewing_server test_decodeErrorMessage
    test_Unmarshal_GetTokenResponse m s input
  = Request renewing_server test_decodeErrorMessage m refreshed.1
      (SetToken m (SetToken m input (GetToken s)) (GetToken refreshed.1)).
Proof.
  intros s m input first refreshed.
  assert (errors_Is_InvalidTokenError first.2 = true) as Hinv
    by (vm_compute; reflexivity).
  assert (refreshed.2 = None) as Hok by (vm_compute; reflexivity).
  split_and!; [exact Hinv|exact Hok|].
  destruct (request_retry_pipeline renewing_server test_decodeErrorMessage
              test_Unmarshal_GetTokenResponse m s input first.1 first.2)
    as (_ & Hretry & _); [exact (surjective_pairing _)|].
  destruct (Hretry Hinv refreshed.1 refreshed.2) as [_ Hsecond];
    [exact (surjective_pairing _)|].
  exact (Hsecond Hok).
Defined.

(** C1 (amended) on a client without credentials. *)
Lemma request_InvalidToken_resolution_witness :
  let s := test_client None "oldtoken" in
  let m := IsValidToken test_Unmarshal_ValidTokenResponse in
  let input := {| Token := "" |} in
  let first :=
    Request renewing_server test_decodeErrorMessage m s
      (SetToken m input (GetToken s)) in
  let result :=
    request renewing_server test_decodeErrorMessage
      test_Unmarshal_GetTokenResponse m s input in
  errors_Is_InvalidTokenError first.2 = true ∧
  result.2 = inl MissingCredentialsError.
Proof.
  intros s m input first result.
  assert (errors_Is_InvalidTokenError first.2 = true) as Hinv
    by (vm_compute; reflexivity).
  split; [exact Hinv|].
  destruct (request_InvalidToken_resolution renewing_server
              test_decodeErrorMessage test_Unmarshal_GetTokenResponse m s input
              first.1 first.2 result.1 result.2)
    as [(Hr & _)|[(_ & c & _ & Hc & _)|[(c & _ & _ & Hc & _)|(s2 & Href & _)]]];
    [exact (surjective_pairing _)|exact Hinv|exact (surjective_pairing _)|exact Hr|
     discriminate Hc|discriminate Hc|].
  vm_compute in Href. discriminate Href.
Defined.

(** C4 on a client whose token has been replaced by a refresh since the
    token "oldtoken" was read from it. *)
Lemma refreshToken_compare_and_set_witness :
  let s0 := test_client (Some test_credentials) "oldtoken" in
  let s :=
    (refreshToken renewing_server test_decodeErrorMessage
       test_Unmarshal_GetTokenResponse s0 "oldtoken").1 in
  GetToken s0 = "oldtoken" ∧ GetToken s = "newtoken" ∧
  refreshToken renewing_server test_decodeErrorMessage
    test_Unmarshal_GetTokenResponse s "oldtoken" = (s, None).
Proof.
  intros s0 s. split; [reflexivity|]. split; [reflexivity|].
  refine (proj1 (proj2 (refreshToken_compare_and_set renewing_server
                          test_decodeErrorMessage
                          test_Unmarshal_GetTokenResponse s "oldtoken"))
            s0 _ eq_refl _).
  - eapply evolves_refreshToken; [apply evolves_refl|].
    exact (surjective_pairing _).
  - vm_compute. discriminate.
Defined.

(** The server that checks the credentials issues a fresh token to the
    client of the tests. *)
Lemma checking_server_issues_fresh_token :
  issues_fresh_token checking_server test_decodeErrorMessage
    test_Unmarshal_GetTokenResponse
    (test_client (Some test_credentials) "oldtoken") test_credentials
    "oldtoken".
Proof.
  eexists _, _. split; [reflexivity|]. split; [reflexivity|].
  vm_compute. discriminate.
Defined.


(** ** The cases of codes_test.go and client_test.go *)

Example TestFindStationWithCode :
  Search ascii_ToLower (WithCode (FindStation ascii_ToLower) "PJ")
    = Return (Some (mkStation "PJ" "Princeton Junction" "Princeton Jct."), true) ∧
  Search ascii_ToLower
    (WithCode (FindStation ascii_ToLower) "XX") = Return (None, false).
Proof. by vm_compute. Qed.

Example TestFindStationWithName :
  Search ascii_ToLower
    (WithName (FindStation ascii_ToLower) "bwi thurgood marshall airport")
    = Return (Some (mkStation "BA" "BWI Thurgood Marshall Airport" "BWI Airport"),
              true) ∧
  Search ascii_ToLower (WithName (FindStation ascii_ToLower) "12345678901234567890")
    = Return (None, false) ∧
  Search ascii_ToLower (WithName (FindStation ascii_ToLower) "berkeley hts")
    = Return (Some (mkStation "BY" "Berkeley Heights" "Berkeley Hts"), true) ∧
  Search ascii_ToLower (WithName (FindStation ascii_ToLower) "HO-HO-KUS")
    = Return (Some (mkStation "UF" "Hohokus" "Hohokus"), true).
Proof. by vm_compute. Qed.

Example TestFindStationOrSynthesize :
  SearchOrSynthesize ascii_ToLower (WithCode (FindStation ascii_ToLower) "XY")
    = Return (Some (mkStation "XY" "Unknown XY" "Unknown XY")) ∧
  SearchOrSynthesize ascii_ToLower
    (WithName (WithCode (FindStation ascii_ToLower) "XY") "12345678901234567890")
    = Return (Some (mkStation "XY" "12345678901234567890" "12345678901234")) ∧
  SearchOrSynthesize ascii_ToLower
    (WithName (FindStation ascii_ToLower) "12345678901234567890")
    = Return (Some (mkStation "XX" "12345678901234567890" "12345678901234")).
Proof. by vm_compute. Qed.

Example TestFindLineWithName :
  Search ascii_ToLower (WithName (FindLine ascii_ToLower) "atlantic city line")
    = Return (Lines !! 0%nat, true) ∧
  Search ascii_ToLower (WithName (FindLine ascii_ToLower) "12345678901234567890")
    = Return (None, false) ∧
  Search ascii_ToLower
    (WithName (FindLine ascii_ToLower) "mobo") = Return (Lines !! 1%nat, true) ∧
  Search ascii_ToLower
    (WithName (FindLine ascii_ToLower) "mne") = Return (Lines !! 4%nat, true) ∧
  Search ascii_ToLower (WithName (FindLine ascii_ToLower) "NORTHEAST CORRDR")
    = Return (Lines !! 6%nat, true).
Proof. by vm_compute. Qed.

Example TestFindLineOrSynthesize :
  SearchOrSynthesize ascii_ToLower (WithCode (FindLine ascii_ToLower) "XY")
    = Return (Some (mkLine "XY" "Unknown XY" "XXXY" (mkColor 0 0 0) [])) ∧
  SearchOrSynthesize ascii_ToLower
    (WithName (FindLine ascii_ToLower) "12345678901234567890")
    = Return (Some (mkLine "XX" "12345678901234567890" "XXXX" (mkColor 0 0 0) [])).
Proof. by vm_compute. Qed.

Example TestRenewTokenWhenRequired :
  let result :=
    request renewing_server test_decodeErrorMessage
      test_Unmarshal_GetTokenResponse
      (IsValidToken test_Unmarshal_ValidTokenResponse)
      (test_client (Some test_credentials) "oldtoken") {| Token := "" |} in
  result.2 = inr {| ValidToken := true; UserID := "the-user-id" |} ∧
  GetToken result.1 = "newtoken" ∧
  goroutines result.1 = [(0%nat, "newtoken", "oldtoken")] ∧
  endpoint <$> wire result.1 = ["isValidToken"; "getToken"; "isValidToken"].
Proof. by vm_compute. Qed.

Example TestRenewTokenFailsWithoutCredentials :
  let result :=
    request renewing_server test_decodeErrorMessage
      test_Unmarshal_GetTokenResponse
      (IsValidToken test_Unmarshal_ValidTokenResponse)
      (test_client None "oldtoken") {| Token := "" |} in
  result.2 = inl MissingCredentialsError ∧ GetToken result.1 = "oldtoken".
Proof. by vm_compute. Qed.

Example TestRenewTokenPropagatesErrorOnBadCredentials :
  let result :=
    request bad_credentials_server test_decodeErrorMessage
      test_Unmarshal_GetTokenResponse
      (IsValidToken test_Unmarshal_ValidTokenResponse)
      (test_client (Some test_credentials) "oldtoken") {| Token := "" |} in
  result.2 = inl BadCredentialsError ∧ GetToken result.1 = "oldtoken".
Proof. by vm_compute. Qed.
